(** * Suffix-array query engine of fast-index-of-all (src/wasm/libsais_wasm.c)

    A shallow embedding of the C query engine: the index structure, the
    suffix comparison, the two binary searches, [count_matches] and
    [find_all], followed by the properties its specification states.

    Conventions of the embedding.
    - [int32_t] values are integers of [Z]; every arithmetic operation of the
      source is written with its 32-bit two's-complement wrap-around
      ([wrap32]), which is what the WebAssembly target computes.
    - A pointer argument is an [option]: [None] is the null pointer, [Some l]
      points to an array holding [l].
    - [while] and [for] loops take a [fuel : nat]; running out of fuel is the
      result [None].  The theorems give the amount of fuel that is enough.
    - The functions that allocate and free ([create_index], [free_index],
      [alloc_result_buffer], [free_result_buffer]) are embedded a second
      time over an explicit heap, with the suffix [_st]; the first embedding
      of [create_index] is proved to be what the second one computes.
    - An access outside the bounds of an array is undefined in C.  The
      embedding stays total there: a read past the end of the suffix array
      gives [0], a negative index or offset counts as [0], and a comparison
      that runs past the end of an array stops with [0].  Every theorem
      that depends on a value read assumes that [length] is the size of
      [data] and of [sa] and that the position read lies inside, so that no
      such access happens. *)

From stdpp Require Import base decidable numbers option list sorting gmap.
From Stdlib Require Import ZArith Lia.
From Stdlib Require Strings.Byte.

Import Corelib.Init.Byte.ByteSyntaxNotations.
Delimit Scope byte_scope with byte.

Local Open Scope Z_scope.

Abbreviation byte := Byte.byte.

(** ** Machine integers *)

(** The value of the low 32 bits of [z] read as a signed integer. *)
Definition wrap32 (z : Z) : Z := (z + 2 ^ 31) `mod` 2 ^ 32 - 2 ^ 31.

Definition add32 (a b : Z) : Z := wrap32 (a + b).
Definition sub32 (a b : Z) : Z := wrap32 (a - b).
(** C division truncates towards zero. *)
Definition div32 (a b : Z) : Z := wrap32 (a `quot` b).

(** Conversion of an [int] to [size_t] (32 bits on the target). *)
Definition to_size_t (z : Z) : Z := z `mod` 2 ^ 32.

Definition INT32_MAX : Z := 2 ^ 31 - 1.

(** The value of a byte as an [unsigned char]. *)
Definition byte_val (b : byte) : Z := Z.of_N (Byte.to_N b).

Global Instance byte_eq_dec : EqDecision byte := Byte.byte_eq_dec.

(** ** The C library function used by the source

    [memcmp] is not code of the repository.  ISO C fixes only the sign of
    its result: it is the sign of the difference of the first pair of bytes
    that differ, both read as [unsigned char], and zero when the first [n]
    bytes agree. *)

(** Sign of the difference at the first position where two byte sequences
    differ; [0] when one of them ends first. *)
Fixpoint first_diff (l r : list byte) : Z :=
  match l, r with
  | a :: l', b :: r' =>
      if decide (a = b) then first_diff l' r'
      else Z.sgn (byte_val a - byte_val b)
  | _, _ => 0
  end.

(** [memcmp l r n]: [l] and [r] are the bytes from each pointer on, [n] is
    the [size_t] argument. *)
Class Libc := {
  memcmp : list byte → list byte → Z → Z;
  memcmp_sgn : ∀ l r n,
    0 ≤ n → n ≤ Z.of_nat (Datatypes.length l) → n ≤ Z.of_nat (Datatypes.length r) →
    Z.sgn (memcmp l r n) = first_diff (take (Z.to_nat n) l) (take (Z.to_nat n) r)
}.

(** The textbook [memcmp], which is the one of musl, the C library that
    Emscripten ships: it returns the difference of the first two bytes that
    differ. *)
Fixpoint memcmp_bytes (l r : list byte) (n : nat) {struct n} : Z :=
  match n with
  | O => 0
  | S n' =>
      match l, r with
      | a :: l', b :: r' =>
          if decide (a = b) then memcmp_bytes l' r' n'
          else byte_val a - byte_val b
      | _, _ => 0
      end
  end.

(** ** The index structure *)

Record SaisIndex := {
  data : list byte;    (* Original buffer data *)
  sa : list Z;         (* Suffix array *)
  length : Z           (* Length of the buffer *)
}.

Abbreviation len := Datatypes.length.

(** [index->sa[i]] *)
Definition sa_at (index : SaisIndex) (i : Z) : Z :=
  default 0 (sa index !! Z.to_nat i).

(** ** create_index and get_index_length *)

(** The environment of [create_index]: whether each of its three [malloc]
    calls succeeds, and the external suffix sorter [libsais], which returns
    a status and the contents it wrote to the suffix array. *)
Record BuildEnv := {
  malloc_index : bool;
  malloc_data : bool;
  malloc_sa : bool;
  libsais : list byte → Z → Z * list Z
}.

Definition create_index (env : BuildEnv) (buffer : list byte) (length : Z)
  : option SaisIndex :=
  if length <=? 0 then None else
  if negb (malloc_index env) then None else
  if negb (malloc_data env) then None else
  let data := take (Z.to_nat length) buffer in
  if negb (malloc_sa env) then None else
  let '(result, sa) := libsais env data length in
  if negb (result =? 0) then None else
  Some {| data := data; sa := sa; length := length |}.

Definition get_index_length (index : option SaisIndex) : Z :=
  match index with
  | Some index => length index
  | None => 0
  end.

(** ** Queries *)

Section Queries.
Context `{Libc}.

Definition compare_suffix (index : SaisIndex) (pos : Z)
    (needle : list byte) (needle_len : Z) : Z :=
  let remaining := sub32 (length index) pos in
  let compare_len := if needle_len <? remaining then needle_len else remaining in
  let cmp := memcmp (drop (Z.to_nat pos) (data index)) needle (to_size_t compare_len) in
  if negb (cmp =? 0) then cmp else
  if remaining <? needle_len then -1 else 0.

Fixpoint lower_bound_loop (fuel : nat) (index : SaisIndex)
    (needle : list byte) (needle_len : Z) (lo hi : Z) : option Z :=
  match fuel with
  | O => None
  | S fuel =>
      if lo <? hi then
        let mid := add32 lo (div32 (sub32 hi lo) 2) in
        let suffix_pos := sa_at index mid in
        if compare_suffix index suffix_pos needle needle_len <? 0
        then lower_bound_loop fuel index needle needle_len (add32 mid 1) hi
        else lower_bound_loop fuel index needle needle_len lo mid
      else Some lo
  end.

Definition lower_bound (fuel : nat) (index : SaisIndex)
    (needle : list byte) (needle_len : Z) : option Z :=
  lower_bound_loop fuel index needle needle_len 0 (length index).

Fixpoint upper_bound_loop (fuel : nat) (index : SaisIndex)
    (needle : list byte) (needle_len : Z) (lo hi : Z) : option Z :=
  match fuel with
  | O => None
  | S fuel =>
      if lo <? hi then
        let mid := add32 lo (div32 (sub32 hi lo) 2) in
        let suffix_pos := sa_at index mid in
        if compare_suffix index suffix_pos needle needle_len <=? 0
        then upper_bound_loop fuel index needle needle_len (add32 mid 1) hi
        else upper_bound_loop fuel index needle needle_len lo mid
      else Some lo
  end.

Definition upper_bound (fuel : nat) (index : SaisIndex)
    (needle : list byte) (needle_len : Z) : option Z :=
  upper_bound_loop fuel index needle needle_len 0 (length index).

Definition count_matches (fuel : nat) (index : option SaisIndex)
    (needle : option (list byte)) (needle_len : Z) : option Z :=
  match index, needle with
  | Some index, Some needle =>
      if needle_len <=? 0 then Some 0 else
      lo ← lower_bound fuel index needle needle_len;
      hi ← upper_bound fuel index needle needle_len;
      Some (sub32 hi lo)
  | _, _ => Some 0
  end.

(** The [for] loop of [find_all]; its state is [i], [count] and the contents
    of the result buffer. *)
Fixpoint find_all_loop (fuel : nat) (index : SaisIndex) (needle_len : Z)
    (start end_ hi limit : Z) (i count : Z) (result_buffer : list Z)
  : option (Z * list Z) :=
  match fuel with
  | O => None
  | S fuel =>
      if (i <? hi) && (count <? limit) then
        let pos := sa_at index i in
        if (pos >=? start) && (add32 pos needle_len <=? end_)
        then find_all_loop fuel index needle_len start end_ hi limit
               (add32 i 1) (add32 count 1)
               (<[Z.to_nat count := pos]> result_buffer)
        else find_all_loop fuel index needle_len start end_ hi limit
               (add32 i 1) count result_buffer
      else Some (count, result_buffer)
  end.

(** [find_all] returns the count and the final state of the result buffer. *)
Definition find_all (fuel : nat) (index : option SaisIndex)
    (needle : option (list byte)) (needle_len : Z)
    (start end_ : Z) (max_count : Z)
    (result_buffer : option (list Z)) (buffer_capacity : Z)
  : option (Z * option (list Z)) :=
  match index, needle, result_buffer with
  | Some index, Some needle, Some buf =>
      if (needle_len <=? 0) || (buffer_capacity <=? 0)
      then Some (0, result_buffer) else
      let end_ := if (end_ <? 0) || (end_ >? length index) then length index else end_ in
      let start := if start <? 0 then 0 else start in
      if start >=? end_ then Some (0, result_buffer) else
      lo ← lower_bound fuel index needle needle_len;
      hi ← upper_bound fuel index needle needle_len;
      let limit := if (max_count >? 0) && (max_count <? buffer_capacity)
                   then max_count else buffer_capacity in
      '(count, buf') ← find_all_loop fuel index needle_len start end_ hi limit lo 0 buf;
      Some (count, Some buf')
  | _, _, _ => Some (0, result_buffer)
  end.

End Queries.

(** [memcmp_bytes] behind the [size_t] interface. *)
Definition memcmp_musl (l r : list byte) (n : Z) : Z :=
  memcmp_bytes l r (Z.to_nat n).

(** It meets the contract of ISO C. *)
Global Instance musl_libc : Libc.
Proof.
  refine {| memcmp := memcmp_musl |}.
  intros l r n _ _ _. unfold memcmp_musl.
  generalize (Z.to_nat n) as k. clear n. intros k. revert l r.
  induction k as [|k IH]; intros l r; [done|].
  destruct l as [|a l], r as [|b r]; simpl; try done.
  case_decide; [apply IH | done].
Defined.

(** ** What the specification says about an index *)

(** The suffix of the buffer that starts at offset [p]. *)
Definition suffix (index : SaisIndex) (p : Z) : list byte :=
  drop (Z.to_nat p) (data index).

(** Byte-wise lexicographic order; a sequence that is a prefix of another
    one sorts before it. *)
Fixpoint lex_leb (s t : list byte) : bool :=
  match s, t with
  | [], _ => true
  | _ :: _, [] => false
  | a :: s', b :: t' =>
      if decide (a = b) then lex_leb s' t'
      else bool_decide (byte_val a < byte_val b)
  end.

Definition suffix_le (index : SaisIndex) : relation Z :=
  λ p q, lex_leb (suffix index p) (suffix index q) = true.

Global Instance suffix_le_dec index : RelDecision (suffix_le index).
Proof. intros p q. unfold suffix_le. apply _. Defined.

(** The invariant of the structure: [length] is the number of bytes of
    [data] and of entries of [sa], it is an [int32_t], and every entry of
    [sa] is an offset into [data]. *)
Definition wf_index (index : SaisIndex) : Prop :=
  length index = Z.of_nat (len (data index)) ∧
  len (sa index) = len (data index) ∧
  0 ≤ length index ≤ INT32_MAX ∧
  Forall (λ p, 0 ≤ p < length index) (sa index).

(** The contract of the suffix sorter: [sa] is a permutation of the offsets
    [0 .. n-1], and for all ranks [i < j] the suffix at [sa[i]] is at most
    the suffix at [sa[j]]. *)
Definition sorted_index (index : SaisIndex) : Prop :=
  length index = Z.of_nat (len (data index)) ∧
  0 ≤ length index ≤ INT32_MAX ∧
  sa index ≡ₚ (Z.of_nat <$> seq 0 (len (data index))) ∧
  StronglySorted (suffix_le index) (sa index).

Global Instance wf_index_dec index : Decision (wf_index index).
Proof. unfold wf_index. apply _. Defined.

Global Instance sorted_index_dec index : Decision (sorted_index index).
Proof. unfold sorted_index. apply _. Defined.

(** A needle argument: [needle_len] is positive and the array behind the
    pointer holds at least [needle_len] bytes. *)
Definition needle_ok (needle : list byte) (needle_len : Z) : Prop :=
  0 < needle_len ≤ Z.of_nat (len needle).

(** The bytes searched for. *)
Definition pattern (needle : list byte) (needle_len : Z) : list byte :=
  take (Z.to_nat needle_len) needle.

(** [p] is a match position of [m] in [buffer]: the occurrence fits and the
    bytes agree. *)
Definition occurs_at (buffer m : list byte) (p : nat) : Prop :=
  (p + len m ≤ len buffer)%nat ∧ take (len m) (drop p buffer) = m.

Global Instance occurs_at_dec buffer m p : Decision (occurs_at buffer m p).
Proof. unfold occurs_at. apply _. Defined.

(** The naive linear scan: try every starting position in turn. *)
Definition naive_positions (buffer m : list byte) : list nat :=
  filter (occurs_at buffer m) (seq 0 (len buffer)).

Definition naive_count (buffer m : list byte) : nat :=
  len (naive_positions buffer m).

(** ** Auxiliary definitions for the proofs *)

(** Three-way comparison of a suffix [s] with a needle [m] on lists: [0]
    when [m] is a prefix of [s], [-1] when [s] ends first, otherwise the
    sign at the first difference. *)
Fixpoint prefix_cmp (s m : list byte) {struct m} : Z :=
  match m with
  | [] => 0
  | b :: m' =>
      match s with
      | [] => -1
      | a :: s' =>
          if decide (a = b) then prefix_cmp s' m'
          else Z.sgn (byte_val a - byte_val b)
      end
  end.

(** The loop shared by [lower_bound] and [upper_bound], over an arbitrary
    test [P] of the rank [mid]. *)
Fixpoint partition_loop (P : Z → bool) (fuel : nat) (lo hi : Z) : option Z :=
  match fuel with
  | O => None
  | S fuel =>
      if lo <? hi then
        let mid := add32 lo (div32 (sub32 hi lo) 2) in
        if P mid then partition_loop P fuel (add32 mid 1) hi
        else partition_loop P fuel lo mid
      else Some lo
  end.

(** The normalised range of [find_all] (lines 155-156 of the source). *)
Definition norm_end (index : SaisIndex) (end_ : Z) : Z :=
  if (end_ <? 0) || (end_ >? length index) then length index else end_.
Definition norm_start (start : Z) : Z :=
  if start <? 0 then 0 else start.

(** The effective limit of [find_all] (line 164). *)
Definition effective_limit (max_count buffer_capacity : Z) : Z :=
  if (max_count >? 0) && (max_count <? buffer_capacity)
  then max_count else buffer_capacity.

(** The test of line 170. *)
Definition in_range (needle_len start end_ : Z) (pos : Z) : Prop :=
  start ≤ pos ∧ add32 pos needle_len ≤ end_.

Global Instance in_range_dec needle_len start end_ pos :
  Decision (in_range needle_len start end_ pos).
Proof. unfold in_range. apply _. Defined.

(** The suffix-array entries of the ranks [lo] to [hi - 1], in rank order. *)
Definition candidates (index : SaisIndex) (lo hi : Z) : list Z :=
  sa_at index <$> seqZ lo (hi - lo).

Section RankTests.
Context `{Libc}.

(** The tests the two binary searches make on the rank [i]. *)
Definition below_needle (index : SaisIndex) (needle : list byte)
    (needle_len : Z) (i : Z) : bool :=
  compare_suffix index (sa_at index i) needle needle_len <? 0.

Definition not_above_needle (index : SaisIndex) (needle : list byte)
    (needle_len : Z) (i : Z) : bool :=
  compare_suffix index (sa_at index i) needle needle_len <=? 0.

End RankTests.

(** ** Concrete inputs *)

Definition banana : list byte := ["b"; "a"; "n"; "a"; "n"; "a"]%byte.
Definition aaaa : list byte := ["a"; "a"; "a"; "a"]%byte.
Definition ana : list byte := ["a"; "n"; "a"]%byte.
Definition na : list byte := ["n"; "a"]%byte.
Definition aa : list byte := ["a"; "a"]%byte.

(** The index of "banana": its suffixes in order are
    a, ana, anana, banana, na, nana. *)
Definition banana_index : SaisIndex :=
  {| data := banana; sa := [5; 3; 1; 0; 4; 2]; length := 6 |}.

(** A build environment in which every allocation succeeds and the sorter
    answers with the suffix array of "banana". *)
Definition banana_env : BuildEnv :=
  {| malloc_index := true; malloc_data := true; malloc_sa := true;
     libsais := λ _ _, (0, [5; 3; 1; 0; 4; 2]) |}.

(** A one-byte buffer, and a needle with a larger byte. *)
Definition a_index : SaisIndex :=
  {| data := ["a"]%byte; sa := [0]; length := 1 |}.

(** ** Allocation: the heap behind the handles

    [create_index], [free_index], [alloc_result_buffer] and
    [free_result_buffer] manage memory with [malloc] and [free].  They are
    embedded a second time over an explicit heap, as computations that
    thread it and that end in [None] where C leaves the behaviour
    undefined: freeing what is not allocated, reading a field never
    written, writing past the end of a block. *)

(** The address of an allocated block; a pointer is an [option addr],
    [None] being the null pointer. *)
Definition addr := nat.

(** The fields of a [SaisIndex] in memory; a field not yet assigned is
    [None]. *)
Record index_fields := {
  f_data : option (option addr);
  f_sa : option (option addr);
  f_length : option Z
}.

Inductive contents :=
  | Uninit                        (* as [malloc] returns it *)
  | Bytes (bs : list byte)        (* an array of [uint8_t] *)
  | Words (ws : list Z)           (* an array of [int32_t] *)
  | Fields (fs : index_fields).   (* a [SaisIndex] *)

Record block := { size : Z; body : contents }.

(** The allocated blocks, and the outcomes of the [malloc] calls to come
    ([true]: the call succeeds); when the list is used up [malloc] fails. *)
Record heap := { blocks : gmap addr block; mallocs : list bool }.

Definition M (A : Type) : Type := heap → option (A * heap).

Global Instance M_ret : MRet M := λ A x h, Some (x, h).
Global Instance M_bind : MBind M := λ A B f m h,
  match m h with
  | Some (x, h') => f x h'
  | None => None
  end.

Definition SIZEOF_SaisIndex : Z := 12.
Definition SIZEOF_int32 : Z := 4.

Definition set_block (p : addr) (b : block) (h : heap) : heap :=
  {| blocks := <[p := b]> (blocks h); mallocs := mallocs h |}.

Definition malloc (sz : Z) : M (option addr) := λ h,
  match mallocs h with
  | true :: rest =>
      let p := fresh (dom (blocks h)) in
      Some (Some p,
            {| blocks := <[p := {| size := sz; body := Uninit |}]> (blocks h);
               mallocs := rest |})
  | false :: rest => Some (None, {| blocks := blocks h; mallocs := rest |})
  | [] => Some (None, h)
  end.

(** [free(NULL)] does nothing; freeing an address that is not allocated is
    undefined. *)
Definition free (p : option addr) : M unit := λ h,
  match p with
  | None => Some ((), h)
  | Some a =>
      match blocks h !! a with
      | Some _ => Some ((), {| blocks := delete a (blocks h); mallocs := mallocs h |})
      | None => None
      end
  end.

(** The fields of the structure in a block: none is assigned in a fresh
    block. *)
Definition fields_of (c : contents) : option index_fields :=
  match c with
  | Uninit => Some {| f_data := None; f_sa := None; f_length := None |}
  | Fields fs => Some fs
  | _ => None
  end.

Definition store_fields (p : addr) (upd : index_fields → index_fields) : M unit :=
  λ h,
  b ← blocks h !! p;
  fs ← fields_of (body b);
  if decide (SIZEOF_SaisIndex ≤ size b)
  then Some ((), set_block p {| size := size b; body := Fields (upd fs) |} h)
  else None.

Definition load_fields {A} (p : addr) (field : index_fields → option A) : M A :=
  λ h,
  b ← blocks h !! p;
  fs ← fields_of (body b);
  v ← field fs;
  Some (v, h).

(** [index->data = v], [index->sa = v], [index->length = v] *)
Definition store_data (p : addr) (v : option addr) : M unit :=
  store_fields p (λ fs, {| f_data := Some v; f_sa := f_sa fs; f_length := f_length fs |}).
Definition store_sa (p : addr) (v : option addr) : M unit :=
  store_fields p (λ fs, {| f_data := f_data fs; f_sa := Some v; f_length := f_length fs |}).
Definition store_length (p : addr) (v : Z) : M unit :=
  store_fields p (λ fs, {| f_data := f_data fs; f_sa := f_sa fs; f_length := Some v |}).

(** [index->data], [index->sa], [index->length] *)
Definition load_data (p : addr) : M (option addr) := load_fields p f_data.
Definition load_sa (p : addr) : M (option addr) := load_fields p f_sa.
Definition load_length (p : addr) : M Z := load_fields p f_length.

(** [memcpy(dst, src, n)] from the caller's buffer [src] into a block. *)
Definition memcpy_to (dst : option addr) (src : list byte) (n : Z) : M unit :=
  λ h,
  d ← dst;
  b ← blocks h !! d;
  if decide (n ≤ size b ∧ n ≤ Z.of_nat (len src))
  then match body b with
       | Uninit | Bytes _ =>
           Some ((), set_block d {| size := size b;
                                    body := Bytes (take (Z.to_nat n) src) |} h)
       | _ => None
       end
  else None.

(** The call [libsais(T, SA, n, 0, NULL)]: the sorter reads the bytes at
    [T], writes its output to the block at [SA], which has to hold it, and
    returns its status. *)
Definition libsais_call (sorter : list byte → Z → Z * list Z)
    (T SA : option addr) (n : Z) : M Z := λ h,
  t ← T;
  s ← SA;
  bt ← blocks h !! t;
  bs ← blocks h !! s;
  match body bt, body bs with
  | Bytes text, (Uninit | Words _) =>
      let '(result, ws) := sorter text n in
      if decide (SIZEOF_int32 * Z.of_nat (len ws) ≤ size bs)
      then Some (result, set_block s {| size := size bs; body := Words ws |} h)
      else None
  | _, _ => None
  end.

(** The byte count [n * sizeof(int32_t)], computed in [size_t]. *)
Definition int32_array_bytes (n : Z) : Z :=
  to_size_t (to_size_t n * SIZEOF_int32).

Definition create_index_st (sorter : list byte → Z → Z * list Z)
    (buffer : list byte) (length : Z) : M (option addr) :=
  if length <=? 0 then mret None else
  index ← malloc SIZEOF_SaisIndex;
  match index with
  | None => mret None
  | Some index =>
      d ← malloc (to_size_t length);
      store_data index d;;
      d ← load_data index;
      if decide (d = None) then
        free (Some index);;
        mret None
      else
        d ← load_data index;
        memcpy_to d buffer (to_size_t length);;
        store_length index length;;
        s ← malloc (int32_array_bytes length);
        store_sa index s;;
        s ← load_sa index;
        if decide (s = None) then
          d ← load_data index;
          free d;;
          free (Some index);;
          mret None
        else
          d ← load_data index;
          s ← load_sa index;
          result ← libsais_call sorter d s length;
          if negb (result =? 0) then
            s ← load_sa index;
            free s;;
            d ← load_data index;
            free d;;
            free (Some index);;
            mret None
          else mret (Some index)
  end.

Definition free_index_st (index : option addr) : M unit :=
  match index with
  | None => mret ()
  | Some index =>
      d ← load_data index;
      (if decide (d = None) then mret () else free d);;
      s ← load_sa index;
      (if decide (s = None) then mret () else free s);;
      free (Some index)
  end.

Definition get_index_length_st (index : option addr) : M Z :=
  match index with
  | None => mret 0
  | Some index => load_length index
  end.

Definition alloc_result_buffer_st (count : Z) : M (option addr) :=
  if count <=? 0 then mret None else
  malloc (int32_array_bytes count).

Definition free_result_buffer_st (buffer : option addr) : M unit :=
  match buffer with
  | None => mret ()
  | Some _ => free buffer
  end.

(** The index a handle stands for: the value of the structure it points to
    together with the contents of its two arrays. *)
Definition index_at (h : heap) (p : addr) : option SaisIndex :=
  b ← blocks h !! p;
  match body b with
  | Fields {| f_data := Some (Some d); f_sa := Some (Some s); f_length := Some n |} =>
      bd ← blocks h !! d;
      bs ← blocks h !! s;
      match body bd, body bs with
      | Bytes bytes, Words ws => Some {| data := bytes; sa := ws; length := n |}
      | _, _ => None
      end
  | _ => None
  end.

(** The build environment the heap gives [create_index]: its three
    allocations succeed as the next three outcomes say. *)
Definition env_of (h : heap) (sorter : list byte → Z → Z * list Z) : BuildEnv :=
  {| malloc_index := default false (mallocs h !! 0%nat);
     malloc_data := default false (mallocs h !! 1%nat);
     malloc_sa := default false (mallocs h !! 2%nat);
     libsais := sorter |}.

(** A heap with nothing allocated in which every [malloc] succeeds. *)
Definition roomy_heap : heap := {| blocks := ∅; mallocs := replicate 8 true |}.

(** The sorter of [banana_env]. *)
Definition banana_sorter : list byte → Z → Z * list Z := libsais banana_env.

(** The blocks of a heap after a successful build: the blocks [m] it had,
    and the structure at [p], the copy of the bytes at [d] and the suffix
    array at [s]. *)
Definition built_blocks (m : gmap addr block) (p d s : addr)
    (bytes : list byte) (ws : list Z) (n : Z) : gmap addr block :=
  <[p := {| size := SIZEOF_SaisIndex;
            body := Fields {| f_data := Some (Some d); f_sa := Some (Some s);
                              f_length := Some n |} |}]>
    (<[s := {| size := int32_array_bytes n; body := Words ws |}]>
       (<[d := {| size := to_size_t n; body := Bytes bytes |}]> m)).

(** * Supporting lemmas *)

(** ** Machine integers: basic facts *)

(** Linear arithmetic with the bound of [int32_t] unfolded. *)
Ltac int32_lia := unfold INT32_MAX in *; lia.

(** Settles a decidable proposition about concrete data by evaluation. *)
Ltac decide_by_eval := apply (bool_decide_unpack _); by vm_compute.

Lemma wrap32_small z : - 2 ^ 31 ≤ z ≤ INT32_MAX → wrap32 z = z.
Proof.
  unfold wrap32, INT32_MAX. intros Hz.
  rewrite Z.mod_small; lia.
Qed.

Lemma wrap32_range z : - 2 ^ 31 ≤ wrap32 z ≤ INT32_MAX.
Proof.
  unfold wrap32, INT32_MAX.
  pose proof (Z.mod_pos_bound (z + 2 ^ 31) (2 ^ 32)). lia.
Qed.

Lemma to_size_t_small z : 0 ≤ z ≤ INT32_MAX → to_size_t z = z.
Proof.
  unfold to_size_t, INT32_MAX. intros Hz. rewrite Z.mod_small; lia.
Qed.

Lemma sgn_le_neg a b : Z.sgn a ≤ Z.sgn b → b < 0 → a < 0.
Proof. destruct (Z.sgn_spec a), (Z.sgn_spec b); lia. Qed.

Lemma sgn_le_nonpos a b : Z.sgn a ≤ Z.sgn b → b ≤ 0 → a ≤ 0.
Proof. destruct (Z.sgn_spec a), (Z.sgn_spec b); lia. Qed.

Lemma midpoint_eq lo hi :
  0 ≤ lo → lo < hi → hi ≤ INT32_MAX →
  add32 lo (div32 (sub32 hi lo) 2) = lo + (hi - lo) `div` 2.
Proof.
  unfold INT32_MAX. intros Hlo Hlt Hhi. unfold add32, div32, sub32.
  rewrite (wrap32_small (hi - lo)) by int32_lia.
  rewrite Z.quot_div_nonneg by lia.
  assert (0 ≤ (hi - lo) `div` 2 ≤ hi - lo).
  { split; [apply Z.div_pos; lia | apply Z.div_le_upper_bound; lia]. }
  rewrite (wrap32_small ((hi - lo) `div` 2)) by int32_lia.
  apply wrap32_small. unfold INT32_MAX. lia.
Qed.

Lemma midpoint_bounds lo hi :
  lo < hi → lo ≤ lo + (hi - lo) `div` 2 < hi.
Proof.
  intros Hlt.
  assert (0 ≤ (hi - lo) `div` 2) by (apply Z.div_pos; lia).
  assert ((hi - lo) `div` 2 < hi - lo) by (apply Z.div_lt; lia).
  lia.
Qed.

(** ** Bytes and the list comparisons *)

Lemma byte_val_inj a b : byte_val a = byte_val b → a = b.
Proof.
  unfold byte_val. intros Hab. apply N2Z.inj in Hab.
  assert (Hs : Some a = Some b); [|by injection Hs].
  by rewrite <- (Byte.of_to_N a), <- (Byte.of_to_N b), Hab.
Qed.

Lemma byte_diff_nonzero a b : a ≠ b → byte_val a - byte_val b ≠ 0.
Proof. intros Hne Hd. apply Hne, byte_val_inj. lia. Qed.

Lemma first_diff_take k s m :
  (Nat.min (len s) (len m) ≤ k)%nat →
  first_diff (take k s) (take k m) = first_diff s m.
Proof.
  revert s m. induction k as [|k IH]; intros s m Hk.
  - destruct s, m; simpl in *; try done; lia.
  - destruct s as [|a s], m as [|b m]; simpl in *; try done.
    case_decide; [apply IH; lia | done].
Qed.

Lemma prefix_cmp_first_diff s m :
  prefix_cmp s m =
    if decide (first_diff s m = 0)
    then (if bool_decide (len s < len m)%nat then -1 else 0)
    else first_diff s m.
Proof.
  revert s. induction m as [|b m IH]; intros s.
  - by destruct s.
  - destruct s as [|a s]; [done|]. simpl. case_decide as Hab.
    + rewrite IH. repeat case_decide; try done.
      all: repeat case_bool_decide; try done; lia.
    + pose proof (byte_diff_nonzero _ _ Hab).
      case_decide as Hs; [|done]. apply Z.sgn_null_iff in Hs. lia.
Qed.

Lemma prefix_cmp_range s m : -1 ≤ prefix_cmp s m ≤ 1.
Proof.
  revert s. induction m as [|b m IH]; intros s; simpl; [lia|].
  destruct s as [|a s]; [lia|]. case_decide; [apply IH|].
  destruct (Z.sgn_spec (byte_val a - byte_val b)); lia.
Qed.

(** The comparison is monotone in the suffix. *)
Lemma prefix_cmp_mono s t m :
  lex_leb s t = true → prefix_cmp s m ≤ prefix_cmp t m.
Proof.
  revert s t. induction m as [|b m IH]; intros s t Hst; simpl; [lia|].
  destruct s as [|a s].
  { destruct t; [lia|]. case_decide; [apply prefix_cmp_range|].
    destruct (Z.sgn_spec (byte_val b0 - byte_val b)); lia. }
  destruct t as [|c t]; [done|]. simpl in Hst.
  destruct (decide (a = c)) as [->|Hac].
  { case_decide; [by apply IH | lia]. }
  apply bool_decide_eq_true in Hst.
  destruct (decide (a = b)) as [->|Hab], (decide (c = b)) as [->|Hcb].
  - done.
  - pose proof (prefix_cmp_range s m).
    destruct (Z.sgn_spec (byte_val c - byte_val b)); lia.
  - pose proof (prefix_cmp_range t m).
    destruct (Z.sgn_spec (byte_val a - byte_val b)); lia.
  - destruct (Z.sgn_spec (byte_val a - byte_val b)),
      (Z.sgn_spec (byte_val c - byte_val b)); lia.
Qed.

(** [prefix_cmp] is [0] exactly on the suffixes that start with [m]. *)
Lemma prefix_cmp_zero s m :
  prefix_cmp s m = 0 ↔ take (len m) s = m.
Proof.
  revert s. induction m as [|b m IH]; intros s; simpl.
  - by rewrite take_0.
  - destruct s as [|a s]; [done|]. simpl. case_decide as Hab.
    + subst. rewrite IH. split; [by intros -> | by intros [=]].
    + pose proof (byte_diff_nonzero _ _ Hab).
      split; [|by intros [=]]. intros Hs. apply Z.sgn_null_iff in Hs. lia.
Qed.

(** ** Lists *)

Lemma StronglySorted_lookup {A} (R : relation A) (l : list A) i j x y :
  StronglySorted R l → l !! i = Some x → l !! j = Some y → (i < j)%nat → R x y.
Proof.
  intros Hl. revert i j. induction Hl as [|a l Hl IH Hall]; intros i j Hi Hj Hij.
  - done.
  - destruct j as [|j]; [lia|]. simpl in Hj. destruct i as [|i]; simpl in Hi.
    + injection Hi as ->. rewrite Forall_forall in Hall.
      apply Hall. by eapply list_elem_of_lookup_2.
    + eapply IH; [done..|lia].
Qed.

Lemma sorted_index_wf index : sorted_index index → wf_index index.
Proof.
  intros (Hlen & Hrange & Hperm & _). unfold wf_index.
  split; [done|]. split; [by rewrite Hperm, length_fmap, length_seq|].
  split; [done|]. rewrite Hperm, Forall_fmap, Forall_forall.
  intros p Hp%elem_of_seq. simpl. lia.
Qed.

Lemma sa_at_lookup index i :
  len (sa index) = len (data index) → length index = Z.of_nat (len (data index)) →
  0 ≤ i < length index →
  sa index !! Z.to_nat i = Some (sa_at index i).
Proof.
  intros Hsa Hlen Hi. unfold sa_at.
  destruct (lookup_lt_is_Some_2 (sa index) (Z.to_nat i)) as [p Hp]; [lia|].
  by rewrite Hp.
Qed.

Lemma sa_at_range index i :
  wf_index index → 0 ≤ i < length index →
  0 ≤ sa_at index i < length index.
Proof.
  intros (Hlen & Hsa & Hrange & Hall) Hi.
  pose proof (sa_at_lookup index i Hsa Hlen Hi) as Hp.
  rewrite Forall_forall in Hall. apply Hall.
  by eapply list_elem_of_lookup_2.
Qed.

(** ** The partition loop *)

Lemma partition_loop_total P fuel lo hi :
  0 ≤ lo ≤ hi → hi ≤ INT32_MAX → (Z.to_nat (hi - lo) < fuel)%nat →
  ∃ r, partition_loop P fuel lo hi = Some r ∧ lo ≤ r ≤ hi.
Proof.
  revert lo hi. induction fuel as [|fuel IH]; intros lo hi Hlo Hhi Hfuel; [lia|].
  cbn [partition_loop]. destruct (Z.ltb_spec lo hi) as [Hlt|Hge].
  - rewrite midpoint_eq by lia.
    pose proof (midpoint_bounds lo hi Hlt) as Hmid.
    set (mid := lo + (hi - lo) `div` 2) in *.
    destruct (P mid).
    + unfold add32. rewrite wrap32_small by int32_lia.
      destruct (IH (mid + 1) hi) as (r & -> & Hr); [lia..|].
      exists r. split; [done|lia].
    + destruct (IH lo mid) as (r & -> & Hr); [lia..|].
      exists r. split; [done|lia].
  - exists lo. split; [done|lia].
Qed.

Lemma partition_loop_correct P n fuel lo hi r :
  (∀ i j, 0 ≤ i → i ≤ j → j < n → P j = true → P i = true) →
  0 ≤ lo ≤ hi → hi ≤ n → n ≤ INT32_MAX →
  (∀ i, 0 ≤ i < lo → P i = true) →
  (∀ i, hi ≤ i < n → P i = false) →
  partition_loop P fuel lo hi = Some r →
  (∀ i, 0 ≤ i < r → P i = true) ∧ (∀ i, r ≤ i < n → P i = false).
Proof.
  intros Hmono. revert lo hi.
  induction fuel as [|fuel IH]; intros lo hi Hlo Hhi Hn Hlow Hhigh Hr; [done|].
  cbn [partition_loop] in Hr. destruct (Z.ltb_spec lo hi) as [Hlt|Hge].
  - rewrite midpoint_eq in Hr by lia.
    pose proof (midpoint_bounds lo hi Hlt) as Hmid.
    set (mid := lo + (hi - lo) `div` 2) in *.
    destruct (P mid) eqn:HP.
    + unfold add32 in Hr. rewrite wrap32_small in Hr by int32_lia.
      apply (IH (mid + 1) hi); [lia..| |done|done].
      intros i Hi. apply (Hmono i mid); [lia..|done].
    + apply (IH lo mid); [lia..|done| |done].
      intros i Hi. destruct (P i) eqn:HPi; [|done].
      rewrite (Hmono mid i) in HP; [done|lia..|done].
  - injection Hr as <-. split; [done|]. intros i Hi. apply Hhigh. lia.
Qed.

Lemma partition_loop_more_fuel P fuel fuel' lo hi r :
  partition_loop P fuel lo hi = Some r → (fuel ≤ fuel')%nat →
  partition_loop P fuel' lo hi = Some r.
Proof.
  revert fuel' lo hi. induction fuel as [|fuel IH]; intros fuel' lo hi Hr Hle; [done|].
  destruct fuel' as [|fuel']; [lia|]. cbn [partition_loop] in *.
  destruct (lo <? hi); [|done].
  destruct (P _); apply IH; (done || lia).
Qed.

(** One iteration of the loop narrows the interval. *)
Lemma partition_loop_step P fuel lo hi :
  0 ≤ lo → lo < hi → hi ≤ INT32_MAX →
  let mid := add32 lo (div32 (sub32 hi lo) 2) in
  mid = lo + (hi - lo) `div` 2 ∧ lo ≤ mid < hi ∧
  ∃ lo' hi', (lo' = mid + 1 ∧ hi' = hi ∨ lo' = lo ∧ hi' = mid) ∧
    hi' - lo' < hi - lo ∧
    partition_loop P (S fuel) lo hi = partition_loop P fuel lo' hi'.
Proof.
  intros Hlo Hlt Hhi mid.
  assert (Hmid : mid = lo + (hi - lo) `div` 2) by (by apply midpoint_eq).
  pose proof (midpoint_bounds lo hi Hlt) as Hb. rewrite <- Hmid in Hb.
  split_and!; [done|lia..|].
  cbn [partition_loop]. fold mid.
  assert ((lo <? hi) = true) as -> by (by apply Z.ltb_lt).
  destruct (P mid).
  - exists (mid + 1), hi. split; [by left|]. split; [lia|].
    unfold add32 at 1. by rewrite wrap32_small by int32_lia.
  - exists lo, mid. split; [by right|]. split; [lia|done].
Qed.

(** ** Comparison of a suffix with the needle *)

Section QueryFacts.
Context `{Libc}.

Lemma lower_bound_loop_partition fuel index needle needle_len lo hi :
  lower_bound_loop fuel index needle needle_len lo hi =
  partition_loop (below_needle index needle needle_len) fuel lo hi.
Proof.
  revert lo hi. induction fuel as [|fuel IH]; intros lo hi; [done|].
  cbn [lower_bound_loop partition_loop]. unfold below_needle at 1.
  by rewrite !IH.
Qed.

Lemma upper_bound_loop_partition fuel index needle needle_len lo hi :
  upper_bound_loop fuel index needle needle_len lo hi =
  partition_loop (not_above_needle index needle needle_len) fuel lo hi.
Proof.
  revert lo hi. induction fuel as [|fuel IH]; intros lo hi; [done|].
  cbn [upper_bound_loop partition_loop]. unfold not_above_needle at 1.
  by rewrite !IH.
Qed.

(** The value of [compare_suffix] at a position inside the buffer. *)
Lemma compare_suffix_cases index pos needle needle_len :
  length index = Z.of_nat (len (data index)) → length index ≤ INT32_MAX →
  0 ≤ pos < length index → needle_ok needle needle_len →
  let cmp_len := Z.to_nat (Z.min needle_len (length index - pos)) in
  let d := first_diff (take cmp_len (suffix index pos)) (take cmp_len needle) in
  (d ≠ 0 → Z.sgn (compare_suffix index pos needle needle_len) = d) ∧
  (d = 0 → compare_suffix index pos needle needle_len =
             if length index - pos <? needle_len then -1 else 0).
Proof.
  intros Hlen Hmax Hpos [Hnl Hneedle] cmp_len d.
  unfold compare_suffix, sub32.
  rewrite (wrap32_small (length index - pos)) by int32_lia.
  set (remaining := length index - pos) in *.
  assert (Hcl : (if needle_len <? remaining then needle_len else remaining)
                = Z.min needle_len remaining).
  { destruct (Z.ltb_spec needle_len remaining); lia. }
  rewrite Hcl. rewrite to_size_t_small by int32_lia.
  pose proof (memcmp_sgn (drop (Z.to_nat pos) (data index)) needle
                (Z.min needle_len remaining)) as Hsgn.
  rewrite length_drop in Hsgn.
  specialize (Hsgn ltac:(lia) ltac:(lia) ltac:(lia)).
  fold (suffix index pos) in *. fold cmp_len d in Hsgn.
  destruct (Z.eqb_spec (memcmp (suffix index pos) needle
                          (Z.min needle_len remaining)) 0) as [Hz|Hnz]; simpl.
  - rewrite Hz in Hsgn. simpl in Hsgn. split; [done|]. by intros _.
  - split; [done|]. intros Hd. rewrite Hd in Hsgn.
    apply (proj1 (Z.sgn_null_iff _)) in Hsgn. destruct (Hnz Hsgn).
Qed.

(** The value of [compare_suffix] in terms of the [memcmp] call it makes. *)
Lemma compare_suffix_value index pos needle needle_len :
  length index = Z.of_nat (len (data index)) → length index ≤ INT32_MAX →
  0 ≤ pos < length index → needle_ok needle needle_len →
  let cmp_len := Z.min needle_len (length index - pos) in
  let cmp := memcmp (suffix index pos) needle cmp_len in
  Z.sgn cmp = first_diff (take (Z.to_nat cmp_len) (suffix index pos))
                (take (Z.to_nat cmp_len) needle) ∧
  compare_suffix index pos needle needle_len
  = if decide (cmp = 0)
    then (if length index - pos <? needle_len then -1 else 0)
    else cmp.
Proof.
  intros Hlen Hmax Hpos [Hnl Hneedle] cmp_len cmp. split.
  - unfold cmp, suffix. apply memcmp_sgn; [lia| |lia].
    rewrite length_drop. lia.
  - unfold compare_suffix, sub32.
    rewrite (wrap32_small (length index - pos)) by int32_lia.
    assert (Hcl : (if needle_len <? length index - pos
                   then needle_len else length index - pos) = cmp_len).
    { unfold cmp_len. destruct (Z.ltb_spec needle_len (length index - pos)); lia. }
    rewrite Hcl, to_size_t_small by (unfold cmp_len; int32_lia).
    fold (suffix index pos). fold cmp.
    by destruct (Z.eqb_spec cmp 0); [rewrite decide_True|rewrite decide_False].
Qed.

End QueryFacts.

Section Bounds.
Context `{Libc}.

Lemma compare_suffix_sgn index pos needle needle_len :
  length index = Z.of_nat (len (data index)) → length index ≤ INT32_MAX →
  0 ≤ pos < length index → needle_ok needle needle_len →
  Z.sgn (compare_suffix index pos needle needle_len)
  = prefix_cmp (suffix index pos) (pattern needle needle_len).
Proof.
  intros Hlen Hmax Hpos Hok.
  destruct (compare_suffix_cases index pos needle needle_len Hlen Hmax Hpos Hok)
    as [Hnz Hz].
  destruct Hok as [Hnl Hneedle].
  set (cmp_len := Z.to_nat (Z.min needle_len (length index - pos))) in *.
  assert (Hs : len (suffix index pos) = Z.to_nat (length index - pos)).
  { unfold suffix. rewrite length_drop. lia. }
  assert (Hp : len (pattern needle needle_len) = Z.to_nat needle_len).
  { unfold pattern. rewrite length_take. lia. }
  assert (Hd : first_diff (take cmp_len (suffix index pos)) (take cmp_len needle)
               = first_diff (suffix index pos) (pattern needle needle_len)).
  { rewrite <- (first_diff_take cmp_len (suffix index pos) (pattern needle needle_len))
      by lia.
    unfold pattern. rewrite take_take. do 2 f_equal. lia. }
  rewrite Hd in Hnz, Hz. rewrite prefix_cmp_first_diff.
  case_decide as Hfd.
  - rewrite (Hz Hfd), Hs, Hp.
    destruct (Z.ltb_spec (length index - pos) needle_len);
      case_bool_decide; (done || lia).
  - by apply Hnz.
Qed.

Lemma compare_suffix_zero_iff index pos needle needle_len :
  length index = Z.of_nat (len (data index)) → length index ≤ INT32_MAX →
  0 ≤ pos < length index → needle_ok needle needle_len →
  compare_suffix index pos needle needle_len = 0
  ↔ occurs_at (data index) (pattern needle needle_len) (Z.to_nat pos).
Proof.
  intros Hlen Hmax Hpos Hok.
  rewrite <- Z.sgn_null_iff, compare_suffix_sgn, prefix_cmp_zero by done.
  unfold occurs_at, suffix. split; [|by intros [_ ?]].
  intros Heq. split; [|done].
  apply (f_equal len) in Heq. rewrite length_take, length_drop in Heq. lia.
Qed.

(** Under the sorter's contract the comparison is monotone in the rank. *)
Lemma compare_rank_mono index needle needle_len i j :
  sorted_index index → needle_ok needle needle_len →
  0 ≤ i → i ≤ j → j < length index →
  Z.sgn (compare_suffix index (sa_at index i) needle needle_len)
  ≤ Z.sgn (compare_suffix index (sa_at index j) needle needle_len).
Proof.
  intros Hsorted Hok Hi Hij Hj.
  pose proof (sorted_index_wf index Hsorted) as Hwf.
  destruct (decide (i = j)) as [->|Hne]; [lia|].
  pose proof (sa_at_range index i Hwf ltac:(lia)).
  pose proof (sa_at_range index j Hwf ltac:(lia)).
  destruct Hwf as (Hlen & Hsa & Hrange & _).
  rewrite !compare_suffix_sgn by (done || lia).
  apply prefix_cmp_mono.
  destruct Hsorted as (_ & _ & _ & Hsorted).
  apply (StronglySorted_lookup _ _ (Z.to_nat i) (Z.to_nat j) _ _ Hsorted);
    [apply sa_at_lookup; (done || lia)..|lia].
Qed.

Lemma below_needle_mono index needle needle_len i j :
  sorted_index index → needle_ok needle needle_len →
  0 ≤ i → i ≤ j → j < length index →
  below_needle index needle needle_len j = true →
  below_needle index needle needle_len i = true.
Proof.
  intros Hsorted Hok Hi Hij Hj. unfold below_needle. rewrite !Z.ltb_lt.
  apply sgn_le_neg. by apply compare_rank_mono.
Qed.

Lemma not_above_needle_mono index needle needle_len i j :
  sorted_index index → needle_ok needle needle_len →
  0 ≤ i → i ≤ j → j < length index →
  not_above_needle index needle needle_len j = true →
  not_above_needle index needle needle_len i = true.
Proof.
  intros Hsorted Hok Hi Hij Hj. unfold not_above_needle. rewrite !Z.leb_le.
  apply sgn_le_nonpos. by apply compare_rank_mono.
Qed.

(** Both searches return, whatever the index holds. *)
Lemma bounds_total index needle needle_len fuel :
  0 ≤ length index ≤ INT32_MAX → (Z.to_nat (length index) < fuel)%nat →
  ∃ lb ub,
    lower_bound fuel index needle needle_len = Some lb ∧
    upper_bound fuel index needle needle_len = Some ub ∧
    0 ≤ lb ≤ length index ∧ 0 ≤ ub ≤ length index.
Proof.
  intros Hrange Hfuel. unfold lower_bound, upper_bound.
  rewrite lower_bound_loop_partition, upper_bound_loop_partition.
  destruct (partition_loop_total (below_needle index needle needle_len)
              fuel 0 (length index)) as (lb & Hlb & ?); [lia..|].
  destruct (partition_loop_total (not_above_needle index needle needle_len)
              fuel 0 (length index)) as (ub & Hub & ?); [lia..|].
  by exists lb, ub.
Qed.

(** On a sorted index the two bounds delimit the ranks that compare equal. *)
Lemma bounds_sorted index needle needle_len fuel :
  sorted_index index → needle_ok needle needle_len →
  (Z.to_nat (length index) < fuel)%nat →
  ∃ lb ub,
    lower_bound fuel index needle needle_len = Some lb ∧
    upper_bound fuel index needle needle_len = Some ub ∧
    0 ≤ lb ∧ lb ≤ ub ∧ ub ≤ length index ∧
    ∀ i, 0 ≤ i < length index →
      (i < lb ↔ compare_suffix index (sa_at index i) needle needle_len < 0) ∧
      (ub ≤ i ↔ 0 < compare_suffix index (sa_at index i) needle needle_len).
Proof.
  intros Hsorted Hok Hfuel.
  assert (Hrange : 0 ≤ length index ≤ INT32_MAX) by apply Hsorted.
  destruct (bounds_total index needle needle_len fuel Hrange Hfuel)
    as (lb & ub & Hlb & Hub & Hlbr & Hubr).
  exists lb, ub. split; [done|]. split; [done|].
  unfold lower_bound, upper_bound in *.
  rewrite lower_bound_loop_partition in Hlb.
  rewrite upper_bound_loop_partition in Hub.
  apply (partition_loop_correct _ (length index)) in Hlb as [Hlb1 Hlb2];
    [|intros i j ?? ?; by apply below_needle_mono|lia..].
  apply (partition_loop_correct _ (length index)) in Hub as [Hub1 Hub2];
    [|intros i j ?? ?; by apply not_above_needle_mono|lia..].
  unfold below_needle, not_above_needle in *.
  assert (Hcmp : ∀ i, 0 ≤ i < length index →
    (i < lb ↔ compare_suffix index (sa_at index i) needle needle_len < 0) ∧
    (ub ≤ i ↔ 0 < compare_suffix index (sa_at index i) needle needle_len)).
  { intros i Hi. split.
    - destruct (decide (i < lb)) as [Hlt|Hge].
      + specialize (Hlb1 i ltac:(lia)). apply Z.ltb_lt in Hlb1. tauto.
      + specialize (Hlb2 i ltac:(lia)). apply Z.ltb_ge in Hlb2. lia.
    - destruct (decide (ub ≤ i)) as [Hle|Hgt].
      + specialize (Hub2 i ltac:(lia)). apply Z.leb_gt in Hub2. tauto.
      + specialize (Hub1 i ltac:(lia)). apply Z.leb_le in Hub1. lia. }
  split; [lia|]. split; [|split; [lia|done]].
  destruct (decide (lb ≤ ub)) as [|Hgt]; [done|].
  destruct (Hcmp ub ltac:(lia)) as [H1 H2]. lia.
Qed.

End Bounds.

(** ** The matching ranks and the naive scan *)

Lemma list_filter_fmap {A B} (f : A → B) (P : B → Prop)
    `{!∀ y, Decision (P y)} (l : list A) :
  filter P (f <$> l) = f <$> filter (λ x, P (f x)) l.
Proof.
  induction l as [|x l IH]; [done|]. rewrite fmap_cons, !filter_cons.
  case_decide; [by rewrite fmap_cons, IH | done].
Qed.

Lemma list_filter_all {A} (P : A → Prop) `{!∀ x, Decision (P x)} (l : list A) :
  Forall P l → filter P l = l.
Proof.
  induction 1 as [|x l Hx Hl IH]; [done|].
  by rewrite filter_cons_True, IH.
Qed.

Lemma list_filter_none {A} (P : A → Prop) `{!∀ x, Decision (P x)} (l : list A) :
  Forall (λ x, ¬ P x) l → filter P l = [].
Proof.
  induction 1 as [|x l Hx Hl IH]; [done|].
  by rewrite filter_cons_False.
Qed.

Lemma list_filter_iff_elem {A} (P1 P2 : A → Prop)
    `{!∀ x, Decision (P1 x), !∀ x, Decision (P2 x)} (l : list A) :
  (∀ x, x ∈ l → P1 x ↔ P2 x) → filter P1 l = filter P2 l.
Proof.
  induction l as [|x l IH]; intros Hiff; [done|].
  rewrite !filter_cons.
  rewrite IH by (intros y Hy; apply Hiff; by right).
  pose proof (Hiff x ltac:(by left)).
  repeat case_decide; (done || tauto).
Qed.

Lemma filter_seqZ_interval (P : Z → Prop) `{!∀ i, Decision (P i)} n lb ub :
  0 ≤ lb → lb ≤ ub → ub ≤ n →
  (∀ i, 0 ≤ i < n → P i ↔ lb ≤ i < ub) →
  filter P (seqZ 0 n) = seqZ lb (ub - lb).
Proof.
  intros Hlb Hle Hub HP.
  replace n with (lb + ((ub - lb) + (n - ub))) at 1 by lia.
  rewrite !seqZ_app, !filter_app by lia.
  rewrite (list_filter_none P (seqZ 0 lb)), (list_filter_all P (seqZ (0 + lb) _)),
    (list_filter_none P (seqZ (0 + lb + _) _)).
  - rewrite app_nil_r. simpl. try done; f_equal; lia.
  - apply Forall_seqZ. intros i Hi. rewrite HP; lia.
  - apply Forall_seqZ. intros i Hi. rewrite HP; lia.
  - apply Forall_seqZ. intros i Hi. rewrite HP; lia.
Qed.

Section Matches.
Context `{Libc}.

Lemma sa_as_candidates index :
  wf_index index → sa index = candidates index 0 (length index).
Proof.
  intros (Hlen & Hsa & Hrange & _). apply list_eq. intros k.
  unfold candidates. rewrite list_lookup_fmap, Z.sub_0_r.
  destruct (decide (Z.of_nat k < length index)) as [Hk|Hk].
  - rewrite lookup_seqZ_lt by done. simpl.
    rewrite <- (sa_at_lookup index (0 + Z.of_nat k)) by (done || lia).
    f_equal. lia.
  - rewrite lookup_seqZ_ge by lia. simpl. apply lookup_ge_None. lia.
Qed.

(** The ranks between the two bounds hold exactly the match positions. *)
Lemma matches_sorted index needle needle_len fuel :
  sorted_index index → needle_ok needle needle_len →
  (Z.to_nat (length index) < fuel)%nat →
  ∃ lb ub,
    lower_bound fuel index needle needle_len = Some lb ∧
    upper_bound fuel index needle needle_len = Some ub ∧
    0 ≤ lb ∧ lb ≤ ub ∧ ub ≤ length index ∧
    candidates index lb ub
    ≡ₚ Z.of_nat <$> naive_positions (data index) (pattern needle needle_len).
Proof.
  intros Hsorted Hok Hfuel.
  destruct (bounds_sorted index needle needle_len fuel Hsorted Hok Hfuel)
    as (lb & ub & Hlb & Hub & H0 & Hle & Hn & Hcmp).
  exists lb, ub. do 5 (split; [done|]).
  pose proof (sorted_index_wf index Hsorted) as Hwf.
  set (Q := λ p, compare_suffix index p needle needle_len = 0).
  assert (Hleft : filter Q (sa index) = candidates index lb ub).
  { rewrite (sa_as_candidates index Hwf) at 1. unfold candidates.
    rewrite Z.sub_0_r, list_filter_fmap. f_equal.
    apply filter_seqZ_interval; [done..|].
    intros i Hi. unfold Q. destruct (Hcmp i Hi). lia. }
  rewrite <- Hleft.
  destruct Hsorted as (Hlen & Hrange & Hperm & _).
  rewrite Hperm, list_filter_fmap. unfold naive_positions.
  erewrite list_filter_iff_elem; [done|].
  intros p Hp%elem_of_seq. unfold Q.
  rewrite compare_suffix_zero_iff by (done || lia).
  by rewrite Nat2Z.id.
Qed.

Lemma length_candidates index lo hi :
  len (candidates index lo hi) = Z.to_nat (hi - lo).
Proof. unfold candidates. by rewrite length_fmap, length_seqZ. Qed.

Lemma count_matches_sorted index needle needle_len fuel :
  sorted_index index → needle_ok needle needle_len →
  (Z.to_nat (length index) < fuel)%nat →
  count_matches fuel (Some index) (Some needle) needle_len
  = Some (Z.of_nat (naive_count (data index) (pattern needle needle_len))).
Proof.
  intros Hsorted Hok Hfuel.
  destruct (matches_sorted index needle needle_len fuel Hsorted Hok Hfuel)
    as (lb & ub & Hlb & Hub & H0 & Hle & Hn & Hperm).
  unfold count_matches.
  assert ((needle_len <=? 0) = false) as -> by (apply Z.leb_gt, Hok).
  rewrite Hlb, Hub. simpl. f_equal.
  assert (ub ≤ INT32_MAX) by (destruct Hsorted as (_ & ? & _); lia).
  unfold sub32. rewrite wrap32_small by int32_lia.
  apply (f_equal len) in Hperm || apply Permutation_length in Hperm.
  rewrite length_candidates, length_fmap in Hperm.
  unfold naive_count. lia.
Qed.

End Matches.

(** ** The collecting loop of find_all *)

Lemma candidates_cons index i hi :
  i < hi → candidates index i hi = sa_at index i :: candidates index (i + 1) hi.
Proof.
  intros Hlt. unfold candidates. rewrite seqZ_cons by lia. simpl.
  do 3 f_equal; lia.
Qed.

Lemma candidates_nil index i hi : hi ≤ i → candidates index i hi = [].
Proof. intros Hle. unfold candidates. by rewrite seqZ_nil by lia. Qed.

Lemma in_range_test needle_len start end_ pos :
  (pos >=? start) && (add32 pos needle_len <=? end_)
  = bool_decide (in_range needle_len start end_ pos).
Proof.
  unfold in_range. destruct (Z.geb_spec pos start), (Z.leb_spec (add32 pos needle_len) end_);
    simpl; symmetry; (apply bool_decide_eq_true || apply bool_decide_eq_false); lia.
Qed.

Lemma effective_limit_range max_count buffer_capacity :
  0 < buffer_capacity →
  0 < effective_limit max_count buffer_capacity ≤ buffer_capacity ∧
  effective_limit max_count buffer_capacity
  = if 0 <? max_count then Z.min max_count buffer_capacity else buffer_capacity.
Proof.
  intros Hcap. unfold effective_limit.
  destruct (Z.gtb_spec max_count 0), (Z.ltb_spec max_count buffer_capacity),
    (Z.ltb_spec 0 max_count); simpl; lia.
Qed.

(** The loop writes, from slot [count] on, the candidates of ranks [i] to
    [hi - 1] that pass the range test, until [limit] slots are filled. *)
Lemma find_all_loop_spec fuel index needle_len start end_ hi limit i count buf :
  0 ≤ i → hi ≤ INT32_MAX → 0 ≤ count ≤ limit → limit ≤ INT32_MAX →
  limit ≤ Z.of_nat (len buf) → (Z.to_nat (hi - i) < fuel)%nat →
  let ws := take (Z.to_nat (limit - count))
              (filter (in_range needle_len start end_) (candidates index i hi)) in
  find_all_loop fuel index needle_len start end_ hi limit i count buf
  = Some (count + Z.of_nat (len ws),
          take (Z.to_nat count) buf ++ ws ++ drop (Z.to_nat count + len ws) buf).
Proof.
  revert i count buf.
  induction fuel as [|fuel IH]; intros i count buf Hi Hhi Hcount Hlimit Hbuf Hfuel;
    [lia|].
  cbn [find_all_loop].
  destruct (Z.ltb_spec i hi) as [Hlt|Hge]; cycle 1.
  { simpl. rewrite candidates_nil by done. rewrite filter_nil, take_nil. simpl.
    rewrite Nat.add_0_r, take_drop. do 2 f_equal. lia. }
  destruct (Z.ltb_spec count limit) as [Hc|Hc]; cycle 1.
  { simpl. replace (Z.to_nat (limit - count)) with 0%nat by lia.
    rewrite take_0. simpl. rewrite Nat.add_0_r, take_drop. do 2 f_equal. lia. }
  simpl andb. cbv iota.
  rewrite in_range_test, (candidates_cons index i hi Hlt), filter_cons.
  unfold add32 at 1 2 3. rewrite !(wrap32_small (i + 1)) by int32_lia.
  case_bool_decide as Hin.
  - rewrite decide_True by done.
    rewrite wrap32_small by int32_lia.
    rewrite IH; [|lia|done|lia|done|by rewrite length_insert|lia].
    replace (Z.to_nat (limit - count)) with (S (Z.to_nat (limit - (count + 1)))) by lia.
    cbn [take]. set (ws := take _ (filter _ _)).
    f_equal. f_equal; [cbn [len]; lia|].
    replace (Z.to_nat (count + 1)) with (S (Z.to_nat count)) by lia.
    rewrite (take_S_r _ _ (sa_at index i))
      by (apply list_lookup_insert_eq; lia).
    rewrite take_insert_ge by lia.
    rewrite drop_insert_lt by lia.
    rewrite <- app_assoc. cbn [len app]. by rewrite Nat.add_succ_r.
  - rewrite decide_False by done.
    rewrite IH; [done|lia|done|lia|done|done|lia].
Qed.

Section FindAll.
Context `{Libc}.

(** [find_all] once the degenerate-input and empty-range exits are passed
    and the two bounds are known. *)
Lemma find_all_eq fuel index needle needle_len start end_ max_count buf
    buffer_capacity lb ub :
  0 < needle_len → 0 < buffer_capacity ≤ INT32_MAX →
  buffer_capacity ≤ Z.of_nat (len buf) →
  lower_bound fuel index needle needle_len = Some lb →
  upper_bound fuel index needle needle_len = Some ub →
  0 ≤ lb → ub ≤ length index → length index ≤ INT32_MAX →
  (Z.to_nat (length index) < fuel)%nat →
  norm_start start < norm_end index end_ →
  let ws := take (Z.to_nat (effective_limit max_count buffer_capacity))
              (filter (in_range needle_len (norm_start start) (norm_end index end_))
                 (candidates index lb ub)) in
  find_all fuel (Some index) (Some needle) needle_len start end_ max_count
    (Some buf) buffer_capacity
  = Some (Z.of_nat (len ws), Some (ws ++ drop (len ws) buf)).
Proof.
  intros Hnl Hcap Hbuf Hlb Hub Hlb0 Hubn Hmax Hfuel Hnonempty ws.
  unfold find_all.
  assert ((needle_len <=? 0) = false) as -> by (by apply Z.leb_gt).
  assert ((buffer_capacity <=? 0) = false) as -> by (apply Z.leb_gt; lia).
  cbn [orb]. fold (norm_end index end_) (norm_start start).
  assert ((norm_start start >=? norm_end index end_) = false) as ->.
  { destruct (Z.geb_spec (norm_start start) (norm_end index end_)); [lia|done]. }
  rewrite Hlb, Hub. cbn [mbind option_bind].
  fold (effective_limit max_count buffer_capacity).
  pose proof (effective_limit_range max_count buffer_capacity ltac:(lia)) as [Hlim _].
  rewrite find_all_loop_spec by lia.
  rewrite Z.sub_0_r, Z.add_0_l. by simpl.
Qed.

End FindAll.

(** ** Early exits *)

Section Exits.
Context `{Libc}.

Lemma find_all_empty_range fuel index needle needle_len start end_ max_count
    result_buffer buffer_capacity :
  norm_end index end_ ≤ norm_start start →
  find_all fuel (Some index) needle needle_len start end_ max_count
    result_buffer buffer_capacity = Some (0, result_buffer).
Proof.
  intros Hempty. unfold find_all.
  destruct needle as [needle|], result_buffer as [buf|]; try done.
  destruct ((needle_len <=? 0) || (buffer_capacity <=? 0)); [done|].
  fold (norm_end index end_) (norm_start start).
  by destruct (Z.geb_spec (norm_start start) (norm_end index end_)); [|lia].
Qed.

Lemma norm_end_idem index end_ :
  0 ≤ length index → norm_end index (norm_end index end_) = norm_end index end_.
Proof.
  intros Hn. unfold norm_end.
  destruct (Z.ltb_spec end_ 0), (Z.gtb_spec end_ (length index)); simpl;
    destruct (Z.ltb_spec (length index) 0), (Z.gtb_spec (length index) (length index));
    simpl; try lia.
  all: destruct (Z.ltb_spec end_ 0), (Z.gtb_spec end_ (length index)); simpl; lia.
Qed.

Lemma norm_start_idem start : norm_start (norm_start start) = norm_start start.
Proof.
  unfold norm_start. destruct (Z.ltb_spec start 0); simpl; [done|].
  destruct (Z.ltb_spec start 0); lia.
Qed.

End Exits.

(** * The claims *)

(** C1. On an index whose suffix array is a permutation of [0, n) in suffix
    order, and for a needle with [needle_len > 0], [count_matches] returns
    the number of positions found by the naive linear scan: the positions
    [p] with [p + needle_len ≤ n] at which the buffer holds the needle's
    bytes, overlapping occurrences counted separately. *)
Theorem count_matches_naive_scan `{Libc} index needle needle_len fuel :
  sorted_index index → needle_ok needle needle_len →
  (Z.to_nat (length index) < fuel)%nat →
  count_matches fuel (Some index) (Some needle) needle_len
  = Some (Z.of_nat (naive_count (data index) (pattern needle needle_len))).
Proof. apply count_matches_sorted. Qed.

Lemma count_matches_naive_scan_witness :
  sorted_index banana_index ∧ needle_ok ana 3 ∧
  (Z.to_nat (length banana_index) < 7)%nat ∧
  count_matches 7 (Some banana_index) (Some ana) 3
  = Some (Z.of_nat (naive_count (data banana_index) (pattern ana 3))).
Proof.
  assert (Hs : sorted_index banana_index) by decide_by_eval.
  assert (Hn : needle_ok ana 3) by (unfold needle_ok; simpl; lia).
  assert (Hf : (Z.to_nat (length banana_index) < 7)%nat) by (vm_compute; lia).
  split; [exact Hs|]. split; [exact Hn|]. split; [exact Hf|].
  exact (count_matches_naive_scan banana_index ana 3 7 Hs Hn Hf).
Defined.

(** C2. On such an index and for a needle with [needle_len > 0], both
    searches return, [lower_bound ≤ upper_bound], every rank in
    [[lower_bound, upper_bound)] compares equal to the needle, every rank of
    [[0, n)] outside that interval compares different from it, and the ranks
    of the interval are exactly the ranks of [[0, n)] whose suffix starts
    with the needle. *)
Theorem bounds_delimit_matches `{Libc} index needle needle_len fuel :
  sorted_index index → needle_ok needle needle_len →
  (Z.to_nat (length index) < fuel)%nat →
  ∃ lb ub,
    lower_bound fuel index needle needle_len = Some lb ∧
    upper_bound fuel index needle needle_len = Some ub ∧
    0 ≤ lb ∧ lb ≤ ub ∧ ub ≤ length index ∧
    (∀ i, lb ≤ i < ub →
       compare_suffix index (sa_at index i) needle needle_len = 0) ∧
    (∀ i, 0 ≤ i < length index → ¬ (lb ≤ i < ub) →
       compare_suffix index (sa_at index i) needle needle_len ≠ 0) ∧
    (∀ i, 0 ≤ i < length index →
       lb ≤ i < ub
       ↔ take (Z.to_nat needle_len) (suffix index (sa_at index i))
         = pattern needle needle_len) ∧
    (∀ i, 0 ≤ i < length index →
       lb ≤ i < ub
       ↔ occurs_at (data index) (pattern needle needle_len)
           (Z.to_nat (sa_at index i))).
Proof.
  intros Hsorted Hok Hfuel.
  destruct (bounds_sorted index needle needle_len fuel Hsorted Hok Hfuel)
    as (lb & ub & Hlb & Hub & H0 & Hle & Hn & Hcmp).
  exists lb, ub. do 5 (split; [done|]).
  pose proof (sorted_index_wf index Hsorted) as Hwf.
  assert (Hocc : ∀ i, 0 ≤ i < length index →
    lb ≤ i < ub
    ↔ occurs_at (data index) (pattern needle needle_len)
        (Z.to_nat (sa_at index i))).
  { intros i Hi.
    pose proof (sa_at_range index i Hwf Hi) as Hpos.
    destruct Hwf as (Hlen & _ & Hrange & _).
    rewrite <- (compare_suffix_zero_iff index (sa_at index i) needle needle_len)
      by (done || lia).
    destruct (Hcmp i Hi). lia. }
  assert (Hpat : len (pattern needle needle_len) = Z.to_nat needle_len).
  { unfold pattern. rewrite length_take. destruct Hok. lia. }
  split; [|split; [|split; [|done]]].
  - intros i Hi. destruct (Hcmp i ltac:(lia)). lia.
  - intros i Hi Hout. destruct (Hcmp i Hi). lia.
  - intros i Hi. rewrite (Hocc i Hi). unfold occurs_at, suffix.
    rewrite Hpat. split; [by intros [_ ?]|]. intros Heq. split; [|done].
    apply (f_equal len) in Heq. rewrite length_take, length_drop, Hpat in Heq.
    destruct Hok. lia.
Qed.

Lemma bounds_delimit_matches_witness :
  sorted_index banana_index ∧ needle_ok ana 3 ∧
  (Z.to_nat (length banana_index) < 7)%nat ∧
  ∃ lb ub,
    lower_bound 7 banana_index ana 3 = Some lb ∧
    upper_bound 7 banana_index ana 3 = Some ub ∧
    0 ≤ lb ∧ lb ≤ ub ∧ ub ≤ length banana_index ∧
    (∀ i, lb ≤ i < ub →
       compare_suffix banana_index (sa_at banana_index i) ana 3 = 0) ∧
    (∀ i, 0 ≤ i < length banana_index → ¬ (lb ≤ i < ub) →
       compare_suffix banana_index (sa_at banana_index i) ana 3 ≠ 0) ∧
    (∀ i, 0 ≤ i < length banana_index →
       lb ≤ i < ub
       ↔ take (Z.to_nat 3) (suffix banana_index (sa_at banana_index i))
         = pattern ana 3) ∧
    (∀ i, 0 ≤ i < length banana_index →
       lb ≤ i < ub
       ↔ occurs_at (data banana_index) (pattern ana 3)
           (Z.to_nat (sa_at banana_index i))).
Proof.
  assert (Hs : sorted_index banana_index) by decide_by_eval.
  assert (Hn : needle_ok ana 3) by (unfold needle_ok; simpl; lia).
  assert (Hf : (Z.to_nat (length banana_index) < 7)%nat) by (vm_compute; lia).
  split; [exact Hs|]. split; [exact Hn|]. split; [exact Hf|].
  exact (bounds_delimit_matches banana_index ana 3 7 Hs Hn Hf).
Defined.

(** C3. On such an index, for a needle with [needle_len > 0], any
    [start], [end_] and [max_count], and a result buffer of positive
    capacity: every position [find_all] returns is a match position [p] with
    [start ≤ p] and [p + needle_len ≤ end_] for the normalised range, and
    when fewer positions than the effective limit are returned, every match
    position within these bounds is among them. *)
Theorem find_all_sound_complete `{Libc} index needle needle_len start end_
    max_count buf buffer_capacity fuel :
  sorted_index index → needle_ok needle needle_len →
  0 < buffer_capacity ≤ INT32_MAX → buffer_capacity ≤ Z.of_nat (len buf) →
  (Z.to_nat (length index) < fuel)%nat →
  ∃ count buf',
    find_all fuel (Some index) (Some needle) needle_len start end_ max_count
      (Some buf) buffer_capacity = Some (count, Some buf') ∧
    let returned := take (Z.to_nat count) buf' in
    (∀ p, p ∈ returned →
       norm_start start ≤ p ∧ p + needle_len ≤ norm_end index end_ ∧
       0 ≤ p ∧ occurs_at (data index) (pattern needle needle_len) (Z.to_nat p)) ∧
    (count < effective_limit max_count buffer_capacity →
     ∀ p : nat,
       occurs_at (data index) (pattern needle needle_len) p →
       norm_start start ≤ Z.of_nat p →
       Z.of_nat p + needle_len ≤ norm_end index end_ →
       Z.of_nat p ∈ returned).
Proof.
  intros Hsorted Hok Hcap Hbuf Hfuel.
  assert (Hpat : len (pattern needle needle_len) = Z.to_nat needle_len).
  { unfold pattern. rewrite length_take. destruct Hok. lia. }
  destruct (decide (norm_start start < norm_end index end_)) as [Hne|Hempty].
  - destruct (matches_sorted index needle needle_len fuel Hsorted Hok Hfuel)
      as (lb & ub & Hlb & Hub & H0 & Hle & Hn & Hperm).
    destruct Hsorted as (Hlen & Hrange & _).
    pose proof (find_all_eq fuel index needle needle_len start end_ max_count
                  buf buffer_capacity lb ub (proj1 Hok) Hcap Hbuf Hlb Hub H0 Hn
                  (proj2 Hrange) Hfuel Hne) as Heq.
    cbv zeta in Heq. destruct Hok as [Hnl Hneedle].
    set (accepted := filter _ (candidates index lb ub)) in Heq.
    set (ws := take _ accepted) in Heq.
    exists (Z.of_nat (len ws)), (ws ++ drop (len ws) buf). split; [done|].
    cbv zeta. rewrite Nat2Z.id, take_app_length. split.
    + intros p Hp%subseteq_take. apply list_elem_of_filter in Hp as [[Hs He] Hc].
      rewrite Hperm in Hc. apply list_elem_of_fmap in Hc as (q & -> & Hq).
      apply list_elem_of_filter in Hq as [Hocc _]. rewrite Nat2Z.id.
      pose proof Hocc as [Hfit _]. rewrite Hpat in Hfit.
      unfold add32 in He.
      rewrite wrap32_small in He by int32_lia.
      split; [lia|]. split; [lia|]. split; [lia|done].
    + intros Hlt p Hocc Hs He.
      assert (Hall : ws = accepted).
      { unfold ws. apply take_ge. unfold ws in Hlt.
        rewrite length_take in Hlt. lia. }
      rewrite Hall. apply list_elem_of_filter.
      pose proof Hocc as [Hfit _]. rewrite Hpat in Hfit. split.
      * split; [done|]. unfold add32.
        rewrite wrap32_small by int32_lia. done.
      * rewrite Hperm. apply list_elem_of_fmap_2, list_elem_of_filter.
        split; [done|]. apply elem_of_seq. lia.
  - exists 0, buf. split; [apply find_all_empty_range; lia|].
    cbv zeta. simpl. split.
    + intros p Hp. by apply elem_of_nil in Hp.
    + intros _ p _ Hs He. destruct Hok. lia.
Qed.

Lemma find_all_sound_complete_witness :
  sorted_index banana_index ∧ needle_ok ana 3 ∧
  0 < 10 ≤ INT32_MAX ∧ 10 ≤ Z.of_nat (len (replicate 10 0)) ∧
  (Z.to_nat (length banana_index) < 7)%nat ∧
  ∃ count buf',
    find_all 7 (Some banana_index) (Some ana) 3 2 6 10
      (Some (replicate 10 0)) 10 = Some (count, Some buf') ∧
    let returned := take (Z.to_nat count) buf' in
    (∀ p, p ∈ returned →
       norm_start 2 ≤ p ∧ p + 3 ≤ norm_end banana_index 6 ∧
       0 ≤ p ∧ occurs_at (data banana_index) (pattern ana 3) (Z.to_nat p)) ∧
    (count < effective_limit 10 10 →
     ∀ p : nat,
       occurs_at (data banana_index) (pattern ana 3) p →
       norm_start 2 ≤ Z.of_nat p →
       Z.of_nat p + 3 ≤ norm_end banana_index 6 →
       Z.of_nat p ∈ returned).
Proof.
  assert (Hs : sorted_index banana_index) by decide_by_eval.
  assert (Hn : needle_ok ana 3) by (unfold needle_ok; simpl; lia).
  assert (Hc : 0 < 10 ≤ INT32_MAX) by int32_lia.
  assert (Hb : 10 ≤ Z.of_nat (len (replicate 10 0))) by (simpl; lia).
  assert (Hf : (Z.to_nat (length banana_index) < 7)%nat) by (vm_compute; lia).
  split; [exact Hs|]. split; [exact Hn|]. split; [exact Hc|]. split; [exact Hb|].
  split; [exact Hf|].
  exact (find_all_sound_complete banana_index ana 3 2 6 10 (replicate 10 0) 10 7
           Hs Hn Hc Hb Hf).
Defined.

(** C4, as the code has it.  For a position [pos] of [[0, n)] and a needle
    with [needle_len > 0], let [cmp_len = min needle_len (n - pos)] and let
    [cmp] be the result of [memcmp] on the first [cmp_len] bytes of the
    suffix and of the needle; its sign is the sign of the byte-wise
    comparison.  When these bytes differ, [compare_suffix] returns [cmp]
    unchanged, a value with the sign of the comparison whose magnitude is
    whatever [memcmp] gives.  When they agree it returns [-1] if
    [n - pos < needle_len] and [0] otherwise. *)
Theorem compare_suffix_sign `{Libc} index pos needle needle_len :
  length index = Z.of_nat (len (data index)) → length index ≤ INT32_MAX →
  0 ≤ pos < length index → needle_ok needle needle_len →
  let cmp_len := Z.to_nat (Z.min needle_len (length index - pos)) in
  let d := first_diff (take cmp_len (suffix index pos)) (take cmp_len needle) in
  let cmp := memcmp (suffix index pos) needle
               (Z.min needle_len (length index - pos)) in
  Z.sgn cmp = d ∧
  (d ≠ 0 → compare_suffix index pos needle needle_len = cmp) ∧
  (d ≠ 0 → Z.sgn (compare_suffix index pos needle needle_len) = d) ∧
  (d = 0 → compare_suffix index pos needle needle_len =
             if length index - pos <? needle_len then -1 else 0).
Proof.
  intros Hlen Hmax Hpos Hok cmp_len d cmp.
  destruct (compare_suffix_value index pos needle needle_len Hlen Hmax Hpos Hok)
    as [Hsgn Hval].
  destruct (compare_suffix_cases index pos needle needle_len Hlen Hmax Hpos Hok)
    as [Hnz Hz].
  fold cmp_len d in Hsgn, Hnz, Hz. fold cmp in Hsgn, Hval.
  split; [done|]. split; [|by split].
  intros Hd. rewrite Hval. rewrite decide_False; [done|].
  intros Hc. rewrite Hc in Hsgn. by apply Hd.
Qed.

Lemma compare_suffix_sign_witness :
  length banana_index = Z.of_nat (len (data banana_index)) ∧
  length banana_index ≤ INT32_MAX ∧ 0 ≤ 4 < length banana_index ∧
  needle_ok ana 3 ∧
  let cmp_len := Z.to_nat (Z.min 3 (length banana_index - 4)) in
  let d := first_diff (take cmp_len (suffix banana_index 4)) (take cmp_len ana) in
  let cmp := memcmp (suffix banana_index 4) ana
               (Z.min 3 (length banana_index - 4)) in
  Z.sgn cmp = d ∧
  (d ≠ 0 → compare_suffix banana_index 4 ana 3 = cmp) ∧
  (d ≠ 0 → Z.sgn (compare_suffix banana_index 4 ana 3) = d) ∧
  (d = 0 → compare_suffix banana_index 4 ana 3 =
             if length banana_index - 4 <? 3 then -1 else 0).
Proof.
  assert (Hl : length banana_index = Z.of_nat (len (data banana_index)))
    by reflexivity.
  assert (Hm : length banana_index ≤ INT32_MAX) by (vm_compute; discriminate).
  assert (Hp : 0 ≤ 4 < length banana_index) by (simpl; lia).
  assert (Hn : needle_ok ana 3) by (unfold needle_ok; simpl; lia).
  split; [exact Hl|]. split; [exact Hm|]. split; [exact Hp|]. split; [exact Hn|].
  exact (compare_suffix_sign banana_index 4 ana 3 Hl Hm Hp Hn).
Defined.

(** C4 as stated fails: with the byte-difference [memcmp], the suffix "a"
    compared with the needle "c" gives [97 - 99 = -2], which is none of
    [-1], [0], [+1]. *)
Lemma compare_suffix_not_normalised :
  wf_index a_index ∧ needle_ok ["c"]%byte 1 ∧
  compare_suffix (H := musl_libc) a_index 0 ["c"]%byte 1 = -2 ∧
  compare_suffix (H := musl_libc) a_index 0 ["c"]%byte 1 ∉ [-1; 0; 1].
Proof.
  split; [decide_by_eval|].
  split; [unfold needle_ok; simpl; lia|].
  split; [by vm_compute|].
  decide_by_eval.
Qed.

(** C5. A call of [find_all] that passes the degenerate-input checks returns
    a count [r] with [0 ≤ r ≤ limit], where [limit] is
    [min max_count buffer_capacity] when [max_count > 0] and
    [buffer_capacity] otherwise; the first [r] slots of the result buffer
    hold entries of the suffix array and every other slot keeps its
    contents. *)
Theorem find_all_limit `{Libc} index needle needle_len start end_
    max_count buf buffer_capacity fuel :
  0 ≤ length index ≤ INT32_MAX → 0 < needle_len →
  0 < buffer_capacity ≤ INT32_MAX → buffer_capacity ≤ Z.of_nat (len buf) →
  (Z.to_nat (length index) < fuel)%nat →
  ∃ count buf',
    find_all fuel (Some index) (Some needle) needle_len start end_ max_count
      (Some buf) buffer_capacity = Some (count, Some buf') ∧
    0 ≤ count ∧
    count ≤ (if 0 <? max_count then Z.min max_count buffer_capacity
             else buffer_capacity) ∧
    len buf' = len buf ∧
    drop (Z.to_nat count) buf' = drop (Z.to_nat count) buf ∧
    ∀ p, p ∈ take (Z.to_nat count) buf' →
      ∃ i, 0 ≤ i < length index ∧ p = sa_at index i.
Proof.
  intros Hrange Hnl Hcap Hbuf Hfuel.
  pose proof (effective_limit_range max_count buffer_capacity (proj1 Hcap))
    as [Hlim Hlimeq].
  destruct (decide (norm_start start < norm_end index end_)) as [Hne|Hempty].
  - destruct (bounds_total index needle needle_len fuel Hrange Hfuel)
      as (lb & ub & Hlb & Hub & Hlbr & Hubr).
    pose proof (find_all_eq fuel index needle needle_len start end_ max_count
                  buf buffer_capacity lb ub Hnl Hcap Hbuf Hlb Hub (proj1 Hlbr)
                  (proj2 Hubr) (proj2 Hrange) Hfuel Hne) as Heq.
    cbv zeta in Heq.
    set (accepted := filter _ (candidates index lb ub)) in Heq.
    set (ws := take _ accepted) in Heq.
    assert (Hws : Z.of_nat (len ws) ≤ effective_limit max_count buffer_capacity).
    { unfold ws. rewrite length_take. lia. }
    exists (Z.of_nat (len ws)), (ws ++ drop (len ws) buf). split; [done|].
    rewrite Nat2Z.id, take_app_length, drop_app_length, length_app, length_drop.
    split; [lia|]. split; [lia|]. split; [lia|]. split; [done|].
    intros p Hp%subseteq_take. apply list_elem_of_filter in Hp as [_ Hc].
    apply list_elem_of_fmap in Hc as (i & -> & Hi%elem_of_seqZ).
    exists i. split; [lia|done].
  - exists 0, buf. split; [apply find_all_empty_range; lia|].
    split; [done|]. split; [lia|]. split; [done|]. split; [done|].
    intros p Hp. by apply elem_of_nil in Hp.
Qed.

Lemma find_all_limit_witness :
  0 ≤ length banana_index ≤ INT32_MAX ∧ 0 < 3 ∧
  0 < 10 ≤ INT32_MAX ∧ 10 ≤ Z.of_nat (len (replicate 10 0)) ∧
  (Z.to_nat (length banana_index) < 7)%nat ∧
  ∃ count buf',
    find_all 7 (Some banana_index) (Some ana) 3 0 6 1
      (Some (replicate 10 0)) 10 = Some (count, Some buf') ∧
    0 ≤ count ∧
    count ≤ (if 0 <? 1 then Z.min 1 10 else 10) ∧
    len buf' = len (replicate 10 0) ∧
    drop (Z.to_nat count) buf' = drop (Z.to_nat count) (replicate 10 0) ∧
    ∀ p, p ∈ take (Z.to_nat count) buf' →
      ∃ i, 0 ≤ i < length banana_index ∧ p = sa_at banana_index i.
Proof.
  assert (Hr : 0 ≤ length banana_index ≤ INT32_MAX) by (unfold INT32_MAX; simpl; lia).
  assert (Hn : 0 < 3) by lia.
  assert (Hc : 0 < 10 ≤ INT32_MAX) by int32_lia.
  assert (Hb : 10 ≤ Z.of_nat (len (replicate 10 0))) by (simpl; lia).
  assert (Hf : (Z.to_nat (length banana_index) < 7)%nat) by (vm_compute; lia).
  split; [exact Hr|]. split; [exact Hn|]. split; [exact Hc|]. split; [exact Hb|].
  split; [exact Hf|].
  exact (find_all_limit banana_index ana 3 0 6 1 (replicate 10 0) 10 7
           Hr Hn Hc Hb Hf).
Defined.

(** C6. [find_all] normalises its range before filtering: an [end_] below
    [0] or above [n] is replaced by [n], a [start] below [0] by [0]; the
    call behaves as the call on the normalised values, and when the
    normalised [start] is not below the normalised [end_] it returns [0] and
    writes nothing, whatever the index and the needle. *)
Theorem find_all_range_normalization `{Libc} index needle needle_len start end_
    max_count result_buffer buffer_capacity fuel :
  0 ≤ length index →
  (end_ < 0 ∨ length index < end_ → norm_end index end_ = length index) ∧
  (0 ≤ end_ ≤ length index → norm_end index end_ = end_) ∧
  (start < 0 → norm_start start = 0) ∧
  (0 ≤ start → norm_start start = start) ∧
  find_all fuel (Some index) needle needle_len start end_ max_count
    result_buffer buffer_capacity
  = find_all fuel (Some index) needle needle_len
      (norm_start start) (norm_end index end_) max_count
      result_buffer buffer_capacity ∧
  (norm_end index end_ ≤ norm_start start →
   find_all fuel (Some index) needle needle_len start end_ max_count
     result_buffer buffer_capacity = Some (0, result_buffer)).
Proof.
  intros Hn. split_and!.
  - unfold norm_end. intros Hout.
    destruct (Z.ltb_spec end_ 0), (Z.gtb_spec end_ (length index)); simpl; lia.
  - unfold norm_end. intros Hin.
    destruct (Z.ltb_spec end_ 0), (Z.gtb_spec end_ (length index)); simpl; lia.
  - unfold norm_start. intros Hneg. destruct (Z.ltb_spec start 0); lia.
  - unfold norm_start. intros Hpos. destruct (Z.ltb_spec start 0); lia.
  - unfold find_all. fold (norm_end index end_) (norm_start start).
    fold (norm_end index (norm_end index end_)) (norm_start (norm_start start)).
    by rewrite norm_end_idem, norm_start_idem.
  - apply find_all_empty_range.
Qed.

Lemma find_all_range_normalization_witness :
  0 ≤ length banana_index ∧
  norm_end banana_index 7 = length banana_index ∧
  norm_start 9 = 9 ∧
  find_all 7 (Some banana_index) (Some ana) 3 9 7 10 (Some (replicate 10 0)) 10
  = Some (0, Some (replicate 10 0)).
Proof.
  assert (Hn : 0 ≤ length banana_index) by (simpl; lia).
  destruct (find_all_range_normalization banana_index (Some ana) 3 9 7 10
              (Some (replicate 10 0)) 10 7 Hn) as (He & _ & _ & Hs & _ & Hr).
  split; [exact Hn|].
  split; [apply He; right; simpl; lia|].
  split; [apply Hs; lia|].
  apply Hr. rewrite He, Hs by (simpl; lia). simpl. lia.
Defined.

(** C7. Degenerate inputs give the safe default.  [count_matches] returns
    [0] when the index or the needle is null or [needle_len ≤ 0];
    [find_all] returns [0] and leaves the buffer alone when the index, the
    needle or the result buffer is null, [needle_len ≤ 0] or
    [buffer_capacity ≤ 0]; [create_index] returns null when [length ≤ 0].
    None of these results needs any fuel. *)
Theorem degenerate_inputs `{Libc} fuel index needle needle_len start end_
    max_count result_buffer buffer_capacity env buffer n :
  (index = None ∨ needle = None ∨ needle_len ≤ 0 →
   count_matches fuel index needle needle_len = Some 0) ∧
  (index = None ∨ needle = None ∨ needle_len ≤ 0 ∨
   result_buffer = None ∨ buffer_capacity ≤ 0 →
   find_all fuel index needle needle_len start end_ max_count
     result_buffer buffer_capacity = Some (0, result_buffer)) ∧
  (n ≤ 0 → create_index env buffer n = None).
Proof.
  split_and!.
  - intros Hdeg. unfold count_matches.
    destruct index, needle; try done.
    destruct (Z.leb_spec needle_len 0); [done|].
    destruct Hdeg as [?|[?|?]]; (done || lia).
  - intros Hdeg. unfold find_all.
    destruct index, needle, result_buffer; try done.
    destruct (Z.leb_spec needle_len 0); [done|].
    destruct (Z.leb_spec buffer_capacity 0); [done|].
    destruct Hdeg as [?|[?|[?|[?|?]]]]; (done || lia).
  - intros Hn. unfold create_index.
    by destruct (Z.leb_spec n 0); [|lia].
Qed.

Lemma degenerate_inputs_witness :
  count_matches 0 (Some banana_index) (Some ana) 0 = Some 0 ∧
  find_all 0 (Some banana_index) (Some ana) 0 0 6 10 (Some (replicate 10 0)) 0
  = Some (0, Some (replicate 10 0)) ∧
  create_index banana_env banana 0 = None.
Proof.
  destruct (degenerate_inputs 0 (Some banana_index) (Some ana) 0 0 6 10
              (Some (replicate 10 0)) 0 banana_env banana 0) as (Hc & Hf & Hb).
  split; [apply Hc; right; right; lia|].
  split; [apply Hf; right; right; left; lia|].
  apply Hb. lia.
Defined.

(** C8. Over the buffer "banana", with any suffix array that meets the
    sorter's contract, "ana" is counted twice and "na" twice; over "aaaa",
    "aa" is counted three times. *)
Theorem count_matches_scenarios `{Libc} sa6 sa4 fuel :
  sorted_index {| data := banana; sa := sa6; length := 6 |} →
  sorted_index {| data := aaaa; sa := sa4; length := 4 |} →
  (6 < fuel)%nat →
  count_matches fuel (Some {| data := banana; sa := sa6; length := 6 |})
    (Some ana) 3 = Some 2 ∧
  count_matches fuel (Some {| data := banana; sa := sa6; length := 6 |})
    (Some na) 2 = Some 2 ∧
  count_matches fuel (Some {| data := aaaa; sa := sa4; length := 4 |})
    (Some aa) 2 = Some 3.
Proof.
  intros H6 H4 Hfuel.
  rewrite !count_matches_sorted;
    [done|try done; unfold needle_ok; simpl; lia..].
Qed.

Lemma count_matches_scenarios_witness :
  sorted_index {| data := banana; sa := [5; 3; 1; 0; 4; 2]; length := 6 |} ∧
  sorted_index {| data := aaaa; sa := [3; 2; 1; 0]; length := 4 |} ∧
  (6 < 7)%nat ∧
  count_matches 7 (Some {| data := banana; sa := [5; 3; 1; 0; 4; 2]; length := 6 |})
    (Some ana) 3 = Some 2 ∧
  count_matches 7 (Some {| data := banana; sa := [5; 3; 1; 0; 4; 2]; length := 6 |})
    (Some na) 2 = Some 2 ∧
  count_matches 7 (Some {| data := aaaa; sa := [3; 2; 1; 0]; length := 4 |})
    (Some aa) 2 = Some 3.
Proof.
  assert (H6 : sorted_index {| data := banana; sa := [5; 3; 1; 0; 4; 2]; length := 6 |})
    by decide_by_eval.
  assert (H4 : sorted_index {| data := aaaa; sa := [3; 2; 1; 0]; length := 4 |})
    by decide_by_eval.
  assert (Hf : (6 < 7)%nat) by lia.
  split; [exact H6|]. split; [exact H4|]. split; [exact Hf|].
  exact (count_matches_scenarios [5; 3; 1; 0; 4; 2] [3; 2; 1; 0] 7 H6 H4 Hf).
Defined.

(** C9. The loops of [lower_bound] and [upper_bound] terminate on every
    index with [0 ≤ length]: inside the loop [mid = lo + (hi - lo) / 2]
    satisfies [lo ≤ mid < hi], the body continues with [lo = mid + 1] or
    with [hi = mid], so [hi - lo] strictly decreases; both functions return
    a value of [[0, n]], the same for every amount of fuel above [n]. *)
Theorem bounds_terminate `{Libc} index needle needle_len :
  0 ≤ length index ≤ INT32_MAX →
  (∀ fuel lo hi, 0 ≤ lo → lo < hi → hi ≤ length index →
     let mid := add32 lo (div32 (sub32 hi lo) 2) in
     mid = lo + (hi - lo) `div` 2 ∧ lo ≤ mid < hi ∧
     (∃ lo' hi', (lo' = mid + 1 ∧ hi' = hi ∨ lo' = lo ∧ hi' = mid) ∧
        hi' - lo' < hi - lo ∧
        lower_bound_loop (S fuel) index needle needle_len lo hi
        = lower_bound_loop fuel index needle needle_len lo' hi') ∧
     (∃ lo' hi', (lo' = mid + 1 ∧ hi' = hi ∨ lo' = lo ∧ hi' = mid) ∧
        hi' - lo' < hi - lo ∧
        upper_bound_loop (S fuel) index needle needle_len lo hi
        = upper_bound_loop fuel index needle needle_len lo' hi')) ∧
  ∃ lb ub, 0 ≤ lb ≤ length index ∧ 0 ≤ ub ≤ length index ∧
    ∀ fuel, (Z.to_nat (length index) < fuel)%nat →
      lower_bound fuel index needle needle_len = Some lb ∧
      upper_bound fuel index needle needle_len = Some ub.
Proof.
  intros Hrange. split.
  - intros fuel lo hi Hlo Hlt Hhi mid.
    destruct (partition_loop_step (below_needle index needle needle_len)
                fuel lo hi Hlo Hlt ltac:(lia)) as (Hmid & Hb & Hlower).
    destruct (partition_loop_step (not_above_needle index needle needle_len)
                fuel lo hi Hlo Hlt ltac:(lia)) as (_ & _ & Hupper).
    rewrite !lower_bound_loop_partition, !upper_bound_loop_partition.
    split; [done|]. split; [done|]. split.
    + destruct Hlower as (lo' & hi' & ? & ? & ?). exists lo', hi'.
      by rewrite !lower_bound_loop_partition.
    + destruct Hupper as (lo' & hi' & ? & ? & ?). exists lo', hi'.
      by rewrite !upper_bound_loop_partition.
  - destruct (bounds_total index needle needle_len (S (Z.to_nat (length index)))
                Hrange ltac:(lia)) as (lb & ub & Hlb & Hub & Hlbr & Hubr).
    exists lb, ub. split; [done|]. split; [done|]. intros fuel Hfuel.
    unfold lower_bound, upper_bound in *.
    rewrite lower_bound_loop_partition in *.
    rewrite upper_bound_loop_partition in *.
    split; eapply partition_loop_more_fuel; (done || lia).
Qed.

Lemma bounds_terminate_witness :
  0 ≤ length banana_index ≤ INT32_MAX ∧
  ∃ lb ub, 0 ≤ lb ≤ length banana_index ∧ 0 ≤ ub ≤ length banana_index ∧
    ∀ fuel, (Z.to_nat (length banana_index) < fuel)%nat →
      lower_bound fuel banana_index ana 3 = Some lb ∧
      upper_bound fuel banana_index ana 3 = Some ub.
Proof.
  assert (Hr : 0 ≤ length banana_index ≤ INT32_MAX) by (unfold INT32_MAX; simpl; lia).
  split; [exact Hr|].
  exact (proj2 (bounds_terminate banana_index ana 3 Hr)).
Defined.

(** C10. [get_index_length] returns [0] on the null handle and the
    [length] field otherwise; on an index built by [create_index] this is
    the length [n] it was built with, which is positive. *)
Theorem get_index_length_spec :
  get_index_length None = 0 ∧
  (∀ index, get_index_length (Some index) = length index) ∧
  ∀ env buffer n index,
    create_index env buffer n = Some index →
    0 < n ∧ length index = n ∧ get_index_length (Some index) = n ∧
    data index = take (Z.to_nat n) buffer.
Proof.
  split; [done|]. split; [done|].
  intros env buffer n index. unfold create_index.
  destruct (Z.leb_spec n 0); [done|].
  destruct (malloc_index env), (malloc_data env), (malloc_sa env); try done.
  simpl. destruct (libsais env _ n) as [result sa']. 
  destruct (result =? 0); [|done]. simpl. intros [= <-]. by simpl.
Qed.

Lemma get_index_length_spec_witness :
  create_index banana_env banana 6 = Some banana_index ∧
  0 < 6 ∧ length banana_index = 6 ∧ get_index_length (Some banana_index) = 6 ∧
  data banana_index = take (Z.to_nat 6) banana.
Proof.
  assert (Hc : create_index banana_env banana 6 = Some banana_index) by reflexivity.
  split; [exact Hc|].
  exact (proj2 (proj2 get_index_length_spec) banana_env banana 6 banana_index Hc).
Defined.

(** * Further properties *)

(** ** The comparison and the lexicographic order *)

Lemma prefix_cmp_neg s m : prefix_cmp s m < 0 ↔ lex_leb m s = false.
Proof.
  revert s. induction m as [|b m IH]; intros s; simpl.
  - split; [lia|done].
  - destruct s as [|a s]; [done|]. simpl.
    destruct (decide (a = b)) as [->|Hab].
    + rewrite decide_True by done. apply IH.
    + rewrite decide_False by done.
      pose proof (byte_diff_nonzero _ _ Hab).
      rewrite bool_decide_eq_false.
      destruct (Z.sgn_spec (byte_val a - byte_val b)); lia.
Qed.

Lemma lex_leb_prefix s m : take (len m) s = m → lex_leb m s = true.
Proof.
  revert s. induction m as [|b m IH]; intros s Hs; [done|].
  destruct s as [|a s]; [done|]. simpl in *. injection Hs as -> Hs.
  rewrite decide_True by done. by apply IH.
Qed.

Section Order.
Context `{Libc}.

Lemma compare_suffix_neg_iff index pos needle needle_len :
  length index = Z.of_nat (len (data index)) → length index ≤ INT32_MAX →
  0 ≤ pos < length index → needle_ok needle needle_len →
  compare_suffix index pos needle needle_len < 0
  ↔ lex_leb (pattern needle needle_len) (suffix index pos) = false.
Proof.
  intros Hlen Hmax Hpos Hok.
  rewrite <- prefix_cmp_neg, <- compare_suffix_sgn by done.
  destruct (Z.sgn_spec (compare_suffix index pos needle needle_len)); lia.
Qed.

End Order.

(** X1. For a position inside the buffer and a needle with
    [needle_len > 0], the sign of [compare_suffix] tells how the suffix
    stands to the needle in byte-wise lexicographic order: it is negative
    exactly when the suffix is smaller than the needle, zero exactly when
    the needle occurs at [pos], and positive exactly when the suffix is
    greater than the needle without starting with it. *)
Theorem compare_suffix_order `{Libc} index pos needle needle_len :
  length index = Z.of_nat (len (data index)) → length index ≤ INT32_MAX →
  0 ≤ pos < length index → needle_ok needle needle_len →
  let m := pattern needle needle_len in
  (compare_suffix index pos needle needle_len < 0
   ↔ lex_leb m (suffix index pos) = false) ∧
  (compare_suffix index pos needle needle_len = 0
   ↔ occurs_at (data index) m (Z.to_nat pos)) ∧
  (0 < compare_suffix index pos needle needle_len
   ↔ lex_leb m (suffix index pos) = true ∧
     ¬ occurs_at (data index) m (Z.to_nat pos)).
Proof.
  intros Hlen Hmax Hpos Hok m.
  pose proof (compare_suffix_neg_iff index pos needle needle_len Hlen Hmax Hpos Hok)
    as Hneg.
  pose proof (compare_suffix_zero_iff index pos needle needle_len Hlen Hmax Hpos Hok)
    as Hzero.
  fold m in Hneg, Hzero. split; [done|]. split; [done|].
  assert (Hpre : occurs_at (data index) m (Z.to_nat pos) →
                 lex_leb m (suffix index pos) = true).
  { intros [_ Hocc]. by apply lex_leb_prefix. }
  destruct (lex_leb m (suffix index pos)) eqn:Hle.
  - split.
    + intros Hpos'. split; [done|]. rewrite <- Hzero. lia.
    + intros [_ Hno]. rewrite <- Hzero in Hno.
      assert (¬ compare_suffix index pos needle needle_len < 0)
        by (rewrite Hneg; done). lia.
  - split; [|by intros [? _]].
    intros Hpos'. assert (compare_suffix index pos needle needle_len < 0)
      by (by apply Hneg). lia.
Qed.

Lemma compare_suffix_order_witness :
  length banana_index = Z.of_nat (len (data banana_index)) ∧
  length banana_index ≤ INT32_MAX ∧ 0 ≤ 3 < length banana_index ∧
  needle_ok ana 3 ∧
  compare_suffix banana_index 3 ana 3 = 0 ∧
  occurs_at (data banana_index) (pattern ana 3) (Z.to_nat 3).
Proof.
  assert (Hl : length banana_index = Z.of_nat (len (data banana_index)))
    by reflexivity.
  assert (Hm : length banana_index ≤ INT32_MAX) by (vm_compute; discriminate).
  assert (Hp : 0 ≤ 3 < length banana_index) by (simpl; lia).
  assert (Hn : needle_ok ana 3) by (unfold needle_ok; simpl; lia).
  split; [exact Hl|]. split; [exact Hm|]. split; [exact Hp|]. split; [exact Hn|].
  destruct (compare_suffix_order banana_index 3 ana 3 Hl Hm Hp Hn) as (_ & Hz & _).
  assert (Hc : compare_suffix banana_index 3 ana 3 = 0) by (by vm_compute).
  split; [exact Hc|]. exact (proj1 Hz Hc).
Defined.



(** ** The number of iterations of the binary searches *)

(** An interval shorter than [2 ^ k] is searched in at most [k] iterations. *)
Lemma partition_loop_log P (k fuel : nat) lo hi :
  0 ≤ lo → hi ≤ INT32_MAX → hi - lo < 2 ^ Z.of_nat k → (k < fuel)%nat →
  is_Some (partition_loop P fuel lo hi).
Proof.
  revert fuel lo hi. induction k as [|k IH]; intros fuel lo hi Hlo Hhi Hsize Hfuel.
  - destruct fuel as [|fuel]; [lia|]. cbn [partition_loop].
    assert ((lo <? hi) = false) as -> by (apply Z.ltb_ge; simpl in Hsize; lia).
    by eexists.
  - destruct fuel as [|fuel]; [lia|]. cbn [partition_loop].
    destruct (Z.ltb_spec lo hi) as [Hlt|Hge]; [|by eexists].
    rewrite midpoint_eq by lia.
    pose proof (midpoint_bounds lo hi Hlt) as Hmid.
    assert (Hhalf : 2 * ((hi - lo) `div` 2) ≤ hi - lo < 2 * ((hi - lo) `div` 2) + 2).
    { pose proof (Z.div_mod (hi - lo) 2 ltac:(lia)).
      pose proof (Z.mod_pos_bound (hi - lo) 2 ltac:(lia)). lia. }
    assert (Hpow : 2 ^ Z.of_nat (S k) = 2 * 2 ^ Z.of_nat k).
    { rewrite Nat2Z.inj_succ. apply Z.pow_succ_r. lia. }
    set (mid := lo + (hi - lo) `div` 2) in *.
    destruct (P mid).
    + unfold add32. rewrite wrap32_small by int32_lia.
      apply IH; lia.
    + apply IH; lia.
Qed.

Section Logarithmic.
Context `{Libc}.

Lemma bounds_within index needle needle_len (k : nat) :
  0 ≤ length index ≤ INT32_MAX → length index < 2 ^ Z.of_nat k →
  ∃ lb ub, ∀ fuel, (k < fuel)%nat →
    lower_bound fuel index needle needle_len = Some lb ∧
    upper_bound fuel index needle needle_len = Some ub.
Proof.
  intros Hrange Hk.
  destruct (partition_loop_log (below_needle index needle needle_len) k (S k)
              0 (length index)) as [lb Hlb]; [lia..|].
  destruct (partition_loop_log (not_above_needle index needle needle_len) k (S k)
              0 (length index)) as [ub Hub]; [lia..|].
  exists lb, ub. intros fuel Hfuel. unfold lower_bound, upper_bound.
  rewrite lower_bound_loop_partition, upper_bound_loop_partition.
  split; eapply partition_loop_more_fuel; (done || lia).
Qed.

End Logarithmic.

(** X3. The binary searches are logarithmic: on an index of length below
    [2 ^ k] each of them returns within [k + 1] evaluations of its loop
    guard, with the result it gives for any larger amount of fuel.  Every
    [int32_t] length is below [2 ^ 31], so 32 units of fuel are enough for
    every index. *)
Theorem bounds_logarithmic `{Libc} index needle needle_len :
  0 ≤ length index ≤ INT32_MAX →
  (∀ k : nat, length index < 2 ^ Z.of_nat k →
     ∃ lb ub, ∀ fuel, (k < fuel)%nat →
       lower_bound fuel index needle needle_len = Some lb ∧
       upper_bound fuel index needle needle_len = Some ub) ∧
  ∃ lb ub, ∀ fuel, (32 ≤ fuel)%nat →
    lower_bound fuel index needle needle_len = Some lb ∧
    upper_bound fuel index needle needle_len = Some ub.
Proof.
  intros Hrange. split.
  - intros k Hk. by apply bounds_within.
  - destruct (bounds_within index needle needle_len 31 Hrange) as (lb & ub & Hb).
    { unfold INT32_MAX in Hrange. change (2 ^ Z.of_nat 31) with (2 ^ 31). lia. }
    exists lb, ub. intros fuel Hfuel. apply Hb. lia.
Qed.

Lemma bounds_logarithmic_witness :
  0 ≤ length banana_index ≤ INT32_MAX ∧
  ∃ lb ub, ∀ fuel, (3 < fuel)%nat →
    lower_bound fuel banana_index ana 3 = Some lb ∧
    upper_bound fuel banana_index ana 3 = Some ub.
Proof.
  assert (Hr : 0 ≤ length banana_index ≤ INT32_MAX) by (unfold INT32_MAX; simpl; lia).
  split; [exact Hr|].
  apply (proj1 (bounds_logarithmic banana_index ana 3 Hr) 3%nat). simpl. lia.
Defined.

(** ** What find_all returns on a sorted index *)

Lemma candidates_slice index lo hi :
  len (sa index) = len (data index) → length index = Z.of_nat (len (data index)) →
  0 ≤ lo → hi ≤ length index →
  candidates index lo hi
  = take (Z.to_nat (hi - lo)) (drop (Z.to_nat lo) (sa index)).
Proof.
  intros Hsa Hlen Hlo Hhi. apply list_eq. intros k. unfold candidates.
  rewrite list_lookup_fmap.
  destruct (decide (Z.of_nat k < hi - lo)) as [Hk|Hk].
  - rewrite lookup_seqZ_lt by done. simpl.
    rewrite lookup_take_lt, lookup_drop by lia.
    rewrite <- (sa_at_lookup index (lo + Z.of_nat k)) by (done || lia).
    f_equal. lia.
  - rewrite lookup_seqZ_ge by lia. simpl. by rewrite lookup_take_ge by lia.
Qed.

(** Occurrences inside the part of the buffer from [s] to [e]. *)
Lemma occurs_at_sub (buffer m : list byte) (s e q : nat) :
  (s ≤ e)%nat → (e ≤ len buffer)%nat →
  occurs_at (take (e - s) (drop s buffer)) m q
  ↔ occurs_at buffer m (s + q) ∧ (s + q + len m ≤ e)%nat.
Proof.
  intros Hse He. unfold occurs_at. rewrite length_take, length_drop.
  assert (Hwin : (q + len m ≤ e - s)%nat →
    take (len m) (drop q (take (e - s) (drop s buffer)))
    = take (len m) (drop (s + q) buffer)).
  { intros Hfit. apply list_eq. intros i.
    destruct (decide (i < len m)%nat) as [Hi|Hi].
    - rewrite !lookup_take_lt, !lookup_drop by lia.
      rewrite lookup_take_lt, lookup_drop by lia. f_equal. lia.
    - by rewrite !lookup_take_ge by lia. }
  split.
  - intros [Hfit Heq]. rewrite Hwin in Heq by lia. split; [split; [lia|done]|lia].
  - intros [[Hfit Heq] Hin]. rewrite Hwin by lia. split; [lia|done].
Qed.

Lemma in_range_match needle_len start end_ (p : nat) :
  0 < needle_len → Z.of_nat p + needle_len ≤ INT32_MAX →
  in_range needle_len start end_ (Z.of_nat p)
  ↔ start ≤ Z.of_nat p ∧ Z.of_nat p + needle_len ≤ end_.
Proof.
  intros Hnl Hfit. unfold in_range, add32.
  by rewrite wrap32_small by int32_lia.
Qed.

Section Returned.
Context `{Libc}.

(** The shape of a call on a sorted index, the early exit included. *)
Lemma find_all_sorted_shape index needle needle_len start end_ max_count buf
    buffer_capacity fuel :
  sorted_index index → needle_ok needle needle_len →
  0 < buffer_capacity ≤ INT32_MAX → buffer_capacity ≤ Z.of_nat (len buf) →
  (Z.to_nat (length index) < fuel)%nat →
  ∃ lb ub,
    lower_bound fuel index needle needle_len = Some lb ∧
    upper_bound fuel index needle needle_len = Some ub ∧
    0 ≤ lb ∧ lb ≤ ub ∧ ub ≤ length index ∧
    candidates index lb ub
    ≡ₚ Z.of_nat <$> naive_positions (data index) (pattern needle needle_len) ∧
    let ws := take (Z.to_nat (effective_limit max_count buffer_capacity))
                (filter (in_range needle_len (norm_start start) (norm_end index end_))
                   (candidates index lb ub)) in
    find_all fuel (Some index) (Some needle) needle_len start end_ max_count
      (Some buf) buffer_capacity
    = Some (Z.of_nat (len ws), Some (ws ++ drop (len ws) buf)).
Proof.
  intros Hsorted Hok Hcap Hbuf Hfuel.
  destruct (matches_sorted index needle needle_len fuel Hsorted Hok Hfuel)
    as (lb & ub & Hlb & Hub & H0 & Hle & Hn & Hperm).
  exists lb, ub. do 6 (split; [done|]).
  destruct Hsorted as (Hlen & Hrange & _). pose proof Hok as [Hnl Hneedle].
  destruct (decide (norm_start start < norm_end index end_)) as [Hne|Hempty].
  - by apply find_all_eq; try lia.
  - assert (Hnone : filter (in_range needle_len (norm_start start) (norm_end index end_))
                      (candidates index lb ub) = []).
    { apply list_filter_none, Forall_forall. intros p Hp. rewrite Hperm in Hp.
      apply list_elem_of_fmap in Hp as (q & -> & Hq).
      apply list_elem_of_filter in Hq as [[Hfit _] _].
      unfold pattern in Hfit. rewrite length_take in Hfit.
      rewrite in_range_match by lia. lia. }
    cbv zeta. rewrite Hnone, take_nil. cbn [len app drop Z.of_nat].
    apply find_all_empty_range. lia.
Qed.

End Returned.

Lemma norm_end_range index end_ :
  0 ≤ length index → 0 ≤ norm_end index end_ ≤ length index.
Proof.
  intros Hn. unfold norm_end.
  destruct (Z.ltb_spec end_ 0), (Z.gtb_spec end_ (length index)); simpl; lia.
Qed.

Lemma norm_start_nonneg start : 0 ≤ norm_start start.
Proof. unfold norm_start. destruct (Z.ltb_spec start 0); lia. Qed.

(** The match positions that pass the range test are the occurrences inside
    the part of the buffer from [s] to [e], shifted by [s]. *)
Lemma range_matches_perm (buffer m : list byte) needle_len s e :
  0 < needle_len → len m = Z.to_nat needle_len →
  Z.of_nat (len buffer) ≤ INT32_MAX →
  0 ≤ s → 0 ≤ e ≤ Z.of_nat (len buffer) →
  filter (in_range needle_len s e) (Z.of_nat <$> naive_positions buffer m)
  ≡ₚ (λ q, s + Z.of_nat q)
       <$> naive_positions (take (Z.to_nat (e - s)) (drop (Z.to_nat s) buffer)) m.
Proof.
  intros Hnl Hm Hmax Hs He. unfold naive_positions.
  set (sub := take (Z.to_nat (e - s)) (drop (Z.to_nat s) buffer)).
  apply NoDup_Permutation.
  - apply NoDup_filter, NoDup_fmap_2; [apply _|]. apply NoDup_filter, NoDup_seq.
  - apply NoDup_fmap_2_strong; [intros; lia|]. apply NoDup_filter, NoDup_seq.
  - intros x. rewrite list_elem_of_filter, !list_elem_of_fmap.
    setoid_rewrite list_elem_of_filter. setoid_rewrite elem_of_seq.
    destruct (decide (s < e)) as [Hlt|Hge].
    + assert (Hsub : ∀ q, occurs_at sub m q
        ↔ occurs_at buffer m (Z.to_nat s + q) ∧ (Z.to_nat s + q + len m ≤ Z.to_nat e)%nat).
      { intros q. unfold sub.
        replace (Z.to_nat (e - s)) with (Z.to_nat e - Z.to_nat s)%nat by lia.
        apply occurs_at_sub; lia. }
      assert (Hlen : len sub = Z.to_nat (e - s)).
      { unfold sub. rewrite length_take, length_drop. lia. }
      split.
      * intros (Hin & p & -> & Hocc & Hp).
        pose proof Hocc as [Hfit _].
        rewrite in_range_match in Hin by lia.
        exists (p - Z.to_nat s)%nat. split; [lia|]. split; [|lia].
        apply Hsub. replace (Z.to_nat s + (p - Z.to_nat s))%nat with p by lia.
        split; [done|lia].
      * intros (q & -> & Hocc & Hq). apply Hsub in Hocc as [Hocc Hfit].
        pose proof Hocc as [Hfit' _].
        replace (s + Z.of_nat q) with (Z.of_nat (Z.to_nat s + q)) by lia.
        split; [rewrite in_range_match by lia; lia|].
        exists (Z.to_nat s + q)%nat. split; [done|]. split; [done|lia].
    + split.
      * intros (Hin & p & -> & [Hfit _] & Hp).
        rewrite in_range_match in Hin by lia. lia.
      * intros (q & -> & [Hfit _] & Hq). unfold sub in Hfit.
        rewrite length_take in Hfit. lia.
Qed.

(** X4. On a suffix-sorted index the positions [find_all] returns come in
    the order of the suffix array: they are a subsequence of [sa], so in
    general not in ascending order, and no position is returned twice. *)
Theorem find_all_suffix_order `{Libc} index needle needle_len start end_
    max_count buf buffer_capacity fuel :
  sorted_index index → needle_ok needle needle_len →
  0 < buffer_capacity ≤ INT32_MAX → buffer_capacity ≤ Z.of_nat (len buf) →
  (Z.to_nat (length index) < fuel)%nat →
  ∃ count buf',
    find_all fuel (Some index) (Some needle) needle_len start end_ max_count
      (Some buf) buffer_capacity = Some (count, Some buf') ∧
    take (Z.to_nat count) buf' `sublist_of` sa index ∧
    NoDup (take (Z.to_nat count) buf').
Proof.
  intros Hsorted Hok Hcap Hbuf Hfuel.
  destruct (find_all_sorted_shape index needle needle_len start end_ max_count
              buf buffer_capacity fuel Hsorted Hok Hcap Hbuf Hfuel)
    as (lb & ub & _ & _ & H0 & Hle & Hn & _ & Heq).
  cbv zeta in Heq. set (ws := take _ (filter _ _)) in Heq.
  exists (Z.of_nat (len ws)), (ws ++ drop (len ws) buf). split; [done|].
  rewrite Nat2Z.id, take_app_length.
  pose proof (sorted_index_wf index Hsorted) as (Hlen & Hsa & _ & _).
  assert (Hsub : ws `sublist_of` sa index).
  { unfold ws. etrans; [apply sublist_take|]. etrans; [apply sublist_filter|].
    rewrite candidates_slice by done.
    etrans; [apply sublist_take|apply sublist_drop]. }
  split; [done|]. apply (sublist_NoDup _ (sa index)); [|done].
  destruct Hsorted as (_ & _ & Hperm & _). rewrite Hperm.
  apply NoDup_fmap_2; [apply _|apply NoDup_seq].
Qed.

Lemma find_all_suffix_order_witness :
  sorted_index banana_index ∧ needle_ok ana 3 ∧
  0 < 10 ≤ INT32_MAX ∧ 10 ≤ Z.of_nat (len (replicate 10 0)) ∧
  (Z.to_nat (length banana_index) < 7)%nat ∧
  ∃ count buf',
    find_all 7 (Some banana_index) (Some ana) 3 0 6 10
      (Some (replicate 10 0)) 10 = Some (count, Some buf') ∧
    take (Z.to_nat count) buf' `sublist_of` sa banana_index ∧
    NoDup (take (Z.to_nat count) buf').
Proof.
  assert (Hs : sorted_index banana_index) by decide_by_eval.
  assert (Hn : needle_ok ana 3) by (unfold needle_ok; simpl; lia).
  assert (Hc : 0 < 10 ≤ INT32_MAX) by int32_lia.
  assert (Hb : 10 ≤ Z.of_nat (len (replicate 10 0))) by (simpl; lia).
  assert (Hf : (Z.to_nat (length banana_index) < 7)%nat) by (vm_compute; lia).
  split; [exact Hs|]. split; [exact Hn|]. split; [exact Hc|]. split; [exact Hb|].
  split; [exact Hf|].
  exact (find_all_suffix_order banana_index ana 3 0 6 10 (replicate 10 0) 10 7
           Hs Hn Hc Hb Hf).
Defined.

Section Subarray.
Context `{Libc}.

Lemma find_all_shape_subarray index needle needle_len start end_ max_count buf
    buffer_capacity fuel :
  sorted_index index → needle_ok needle needle_len →
  0 < buffer_capacity ≤ INT32_MAX → buffer_capacity ≤ Z.of_nat (len buf) →
  (Z.to_nat (length index) < fuel)%nat →
  let s := norm_start start in
  let e := norm_end index end_ in
  let sub := take (Z.to_nat (e - s)) (drop (Z.to_nat s) (data index)) in
  let m := pattern needle needle_len in
  let limit := effective_limit max_count buffer_capacity in
  ∃ count buf' l,
    find_all fuel (Some index) (Some needle) needle_len start end_ max_count
      (Some buf) buffer_capacity = Some (count, Some buf') ∧
    l ≡ₚ (λ q, s + Z.of_nat q) <$> naive_positions sub m ∧
    take (Z.to_nat count) buf' = take (Z.to_nat limit) l ∧
    count = Z.min limit (Z.of_nat (naive_count sub m)).
Proof.
  intros Hsorted Hok Hcap Hbuf Hfuel s e sub m limit.
  destruct (find_all_sorted_shape index needle needle_len start end_ max_count
              buf buffer_capacity fuel Hsorted Hok Hcap Hbuf Hfuel)
    as (lb & ub & _ & _ & H0 & Hle & Hn & Hperm & Heq).
  cbv zeta in Heq. fold s e limit m in Heq, Hperm.
  set (l := filter (in_range needle_len s e) (candidates index lb ub)) in Heq.
  exists (Z.of_nat (len (take (Z.to_nat limit) l))),
    (take (Z.to_nat limit) l ++ drop (len (take (Z.to_nat limit) l)) buf), l.
  split; [done|].
  destruct Hsorted as (Hlen & Hrange & _). pose proof Hok as [Hnl Hneedle].
  assert (Hl : l ≡ₚ (λ q, s + Z.of_nat q) <$> naive_positions sub m).
  { unfold l. rewrite Hperm. apply range_matches_perm.
    - done.
    - unfold m, pattern. rewrite length_take. lia.
    - lia.
    - apply norm_start_nonneg.
    - rewrite <- Hlen. apply norm_end_range. lia. }
  split; [done|]. rewrite Nat2Z.id, take_app_length. split; [done|].
  apply Permutation_length in Hl. rewrite length_fmap in Hl.
  rewrite length_take, Hl. fold (naive_count sub m).
  pose proof (effective_limit_range max_count buffer_capacity (proj1 Hcap)) as [? _].
  fold limit in H0. lia.
Qed.

(** One enumeration serves every limit: the calls that differ only in
    [max_count], the capacity and the buffer return prefixes of it. *)
Lemma find_all_prefix_shape index needle needle_len start end_ fuel :
  0 ≤ length index ≤ INT32_MAX → 0 < needle_len →
  (Z.to_nat (length index) < fuel)%nat →
  ∃ l, ∀ max_count buf buffer_capacity,
    0 < buffer_capacity ≤ INT32_MAX → buffer_capacity ≤ Z.of_nat (len buf) →
    let ws := take (Z.to_nat (effective_limit max_count buffer_capacity)) l in
    find_all fuel (Some index) (Some needle) needle_len start end_ max_count
      (Some buf) buffer_capacity
    = Some (Z.of_nat (len ws), Some (ws ++ drop (len ws) buf)).
Proof.
  intros Hrange Hnl Hfuel.
  destruct (decide (norm_start start < norm_end index end_)) as [Hne|Hempty].
  - destruct (bounds_total index needle needle_len fuel Hrange Hfuel)
      as (lb & ub & Hlb & Hub & Hlbr & Hubr).
    exists (filter (in_range needle_len (norm_start start) (norm_end index end_))
              (candidates index lb ub)).
    intros max_count buf buffer_capacity Hcap Hbuf.
    by apply find_all_eq; try lia.
  - exists []. intros max_count buf buffer_capacity Hcap Hbuf.
    cbv zeta. rewrite take_nil. cbn [len app drop Z.of_nat].
    apply find_all_empty_range. lia.
Qed.

End Subarray.

(** X5. On a suffix-sorted index [find_all] has the meaning its comment
    gives, a search in [buffer.subarray(start, end)]: the positions it
    returns are the first [limit] entries of an enumeration of the
    occurrences of the needle inside the bytes from the normalised [start]
    to the normalised [end_], each shifted by [start]; the count returned
    is the smaller of [limit] and the number of these occurrences. *)
Theorem find_all_subarray `{Libc} index needle needle_len start end_
    max_count buf buffer_capacity fuel :
  sorted_index index → needle_ok needle needle_len →
  0 < buffer_capacity ≤ INT32_MAX → buffer_capacity ≤ Z.of_nat (len buf) →
  (Z.to_nat (length index) < fuel)%nat →
  let s := norm_start start in
  let e := norm_end index end_ in
  let sub := take (Z.to_nat (e - s)) (drop (Z.to_nat s) (data index)) in
  let m := pattern needle needle_len in
  let limit := effective_limit max_count buffer_capacity in
  ∃ count buf' l,
    find_all fuel (Some index) (Some needle) needle_len start end_ max_count
      (Some buf) buffer_capacity = Some (count, Some buf') ∧
    l ≡ₚ (λ q, s + Z.of_nat q) <$> naive_positions sub m ∧
    take (Z.to_nat count) buf' = take (Z.to_nat limit) l ∧
    count = Z.min limit (Z.of_nat (naive_count sub m)).
Proof. apply find_all_shape_subarray. Qed.

Lemma find_all_subarray_witness :
  sorted_index banana_index ∧ needle_ok ana 3 ∧
  0 < 10 ≤ INT32_MAX ∧ 10 ≤ Z.of_nat (len (replicate 10 0)) ∧
  (Z.to_nat (length banana_index) < 7)%nat ∧
  ∃ count buf' l,
    find_all 7 (Some banana_index) (Some ana) 3 2 6 10
      (Some (replicate 10 0)) 10 = Some (count, Some buf') ∧
    l ≡ₚ (λ q, norm_start 2 + Z.of_nat q)
           <$> naive_positions
                 (take (Z.to_nat (norm_end banana_index 6 - norm_start 2))
                    (drop (Z.to_nat (norm_start 2)) (data banana_index)))
                 (pattern ana 3) ∧
    take (Z.to_nat count) buf' = take (Z.to_nat (effective_limit 10 10)) l ∧
    count = Z.min (effective_limit 10 10)
              (Z.of_nat (naive_count
                 (take (Z.to_nat (norm_end banana_index 6 - norm_start 2))
                    (drop (Z.to_nat (norm_start 2)) (data banana_index)))
                 (pattern ana 3))).
Proof.
  assert (Hs : sorted_index banana_index) by decide_by_eval.
  assert (Hn : needle_ok ana 3) by (unfold needle_ok; simpl; lia).
  assert (Hc : 0 < 10 ≤ INT32_MAX) by int32_lia.
  assert (Hb : 10 ≤ Z.of_nat (len (replicate 10 0))) by (simpl; lia).
  assert (Hf : (Z.to_nat (length banana_index) < 7)%nat) by (vm_compute; lia).
  split; [exact Hs|]. split; [exact Hn|]. split; [exact Hc|]. split; [exact Hb|].
  split; [exact Hf|].
  exact (find_all_subarray banana_index ana 3 2 6 10 (replicate 10 0) 10 7
           Hs Hn Hc Hb Hf).
Defined.

(** X6. The calls of [find_all] that differ only in [max_count], in the
    capacity and in the result buffer return prefixes of one list: each
    returns its first [limit] entries and leaves the rest of its buffer
    as it was.  So a larger limit only appends positions. *)
Theorem find_all_prefix_of_enumeration `{Libc} index needle needle_len start end_ fuel :
  0 ≤ length index ≤ INT32_MAX → 0 < needle_len →
  (Z.to_nat (length index) < fuel)%nat →
  ∃ l, ∀ max_count buf buffer_capacity,
    0 < buffer_capacity ≤ INT32_MAX → buffer_capacity ≤ Z.of_nat (len buf) →
    ∃ count buf',
      find_all fuel (Some index) (Some needle) needle_len start end_ max_count
        (Some buf) buffer_capacity = Some (count, Some buf') ∧
      take (Z.to_nat count) buf'
      = take (Z.to_nat (effective_limit max_count buffer_capacity)) l ∧
      drop (Z.to_nat count) buf' = drop (Z.to_nat count) buf.
Proof.
  intros Hrange Hnl Hfuel.
  destruct (find_all_prefix_shape index needle needle_len start end_ fuel
              Hrange Hnl Hfuel) as [l Hl].
  exists l. intros max_count buf buffer_capacity Hcap Hbuf.
  specialize (Hl max_count buf buffer_capacity Hcap Hbuf). cbv zeta in Hl.
  set (ws := take _ l) in *.
  exists (Z.of_nat (len ws)), (ws ++ drop (len ws) buf). split; [done|].
  by rewrite Nat2Z.id, take_app_length, drop_app_length.
Qed.

Lemma find_all_prefix_of_enumeration_witness :
  0 ≤ length banana_index ≤ INT32_MAX ∧ 0 < 3 ∧
  (Z.to_nat (length banana_index) < 7)%nat ∧
  ∃ l, ∀ max_count buf buffer_capacity,
    0 < buffer_capacity ≤ INT32_MAX → buffer_capacity ≤ Z.of_nat (len buf) →
    ∃ count buf',
      find_all 7 (Some banana_index) (Some ana) 3 0 6 max_count
        (Some buf) buffer_capacity = Some (count, Some buf') ∧
      take (Z.to_nat count) buf'
      = take (Z.to_nat (effective_limit max_count buffer_capacity)) l ∧
      drop (Z.to_nat count) buf' = drop (Z.to_nat count) buf.
Proof.
  assert (Hr : 0 ≤ length banana_index ≤ INT32_MAX) by (unfold INT32_MAX; simpl; lia).
  assert (Hn : 0 < 3) by lia.
  assert (Hf : (Z.to_nat (length banana_index) < 7)%nat) by (vm_compute; lia).
  split; [exact Hr|]. split; [exact Hn|]. split; [exact Hf|].
  exact (find_all_prefix_of_enumeration banana_index ana 3 0 6 7 Hr Hn Hf).
Defined.

(** X7. Over the whole buffer ([start ≤ 0] and [end_] negative or at least
    [n]) [find_all] and [count_matches] agree on a suffix-sorted index: the
    count [find_all] returns is the smaller of its limit and the result of
    [count_matches], and when the limit is not smaller it returns every
    match position. *)
Theorem find_all_whole_buffer `{Libc} index needle needle_len start end_
    max_count buf buffer_capacity fuel :
  sorted_index index → needle_ok needle needle_len →
  0 < buffer_capacity ≤ INT32_MAX → buffer_capacity ≤ Z.of_nat (len buf) →
  (Z.to_nat (length index) < fuel)%nat →
  start ≤ 0 → end_ < 0 ∨ length index ≤ end_ →
  let limit := effective_limit max_count buffer_capacity in
  ∃ c count buf',
    count_matches fuel (Some index) (Some needle) needle_len = Some c ∧
    find_all fuel (Some index) (Some needle) needle_len start end_ max_count
      (Some buf) buffer_capacity = Some (count, Some buf') ∧
    count = Z.min limit c ∧
    (c ≤ limit →
     take (Z.to_nat count) buf'
     ≡ₚ Z.of_nat <$> naive_positions (data index) (pattern needle needle_len)).
Proof.
  intros Hsorted Hok Hcap Hbuf Hfuel Hstart Hend limit.
  destruct (find_all_shape_subarray index needle needle_len start end_ max_count
              buf buffer_capacity fuel Hsorted Hok Hcap Hbuf Hfuel)
    as (count & buf' & l & Hfind & Hl & Htake & Hcount).
  pose proof (count_matches_sorted index needle needle_len fuel Hsorted Hok Hfuel)
    as Hc.
  destruct Hsorted as (Hlen & Hrange & _).
  assert (Hs : norm_start start = 0).
  { unfold norm_start. destruct (Z.ltb_spec start 0); lia. }
  assert (He : norm_end index end_ = length index).
  { unfold norm_end.
    destruct (Z.ltb_spec end_ 0), (Z.gtb_spec end_ (length index)); simpl; lia. }
  rewrite Hs, He, Z.sub_0_r in Hl, Hcount.
  change (Z.to_nat 0) with 0%nat in Hl, Hcount. rewrite drop_0 in Hl, Hcount.
  rewrite take_ge in Hl, Hcount by lia. fold limit in Htake, Hcount.
  eexists _, count, buf'. split; [exact Hc|]. split; [done|]. split; [done|].
  intros Hle. rewrite Htake, take_ge.
  - rewrite Hl. erewrite list_fmap_ext; [done|]. intros _ q _. lia.
  - apply Permutation_length in Hl. rewrite length_fmap in Hl.
    rewrite Hl. fold (naive_count (data index) (pattern needle needle_len)). lia.
Qed.

Lemma find_all_whole_buffer_witness :
  sorted_index banana_index ∧ needle_ok ana 3 ∧
  0 < 10 ≤ INT32_MAX ∧ 10 ≤ Z.of_nat (len (replicate 10 0)) ∧
  (Z.to_nat (length banana_index) < 7)%nat ∧ 0 ≤ 0 ∧ (-1 < 0 ∨ length banana_index ≤ -1) ∧
  ∃ c count buf',
    count_matches 7 (Some banana_index) (Some ana) 3 = Some c ∧
    find_all 7 (Some banana_index) (Some ana) 3 0 (-1) 0
      (Some (replicate 10 0)) 10 = Some (count, Some buf') ∧
    count = Z.min (effective_limit 0 10) c ∧
    (c ≤ effective_limit 0 10 →
     take (Z.to_nat count) buf'
     ≡ₚ Z.of_nat <$> naive_positions (data banana_index) (pattern ana 3)).
Proof.
  assert (Hs : sorted_index banana_index) by decide_by_eval.
  assert (Hn : needle_ok ana 3) by (unfold needle_ok; simpl; lia).
  assert (Hc : 0 < 10 ≤ INT32_MAX) by int32_lia.
  assert (Hb : 10 ≤ Z.of_nat (len (replicate 10 0))) by (simpl; lia).
  assert (Hf : (Z.to_nat (length banana_index) < 7)%nat) by (vm_compute; lia).
  assert (H0 : 0 ≤ 0) by lia.
  assert (He : -1 < 0 ∨ length banana_index ≤ -1) by (left; lia).
  split; [exact Hs|]. split; [exact Hn|]. split; [exact Hc|]. split; [exact Hb|].
  split; [exact Hf|]. split; [exact H0|]. split; [exact He|].
  exact (find_all_whole_buffer banana_index ana 3 0 (-1) 0 (replicate 10 0) 10 7
           Hs Hn Hc Hb Hf H0 He).
Defined.

(** ** Building and then querying *)

(** X8. Building and counting compose.  When [create_index] succeeds on the
    first [n] bytes of a buffer and the suffix array the sorter returned for
    them meets its contract, the index is suffix-sorted over a copy of these
    bytes, and [count_matches] on it returns the number of occurrences of
    the needle that a naive scan of these bytes finds. *)
Theorem create_index_then_count `{Libc} env buffer n index needle needle_len fuel :
  create_index env buffer n = Some index →
  n ≤ Z.of_nat (len buffer) → n ≤ INT32_MAX →
  (∀ sa, libsais env (take (Z.to_nat n) buffer) n = (0, sa) →
     sa ≡ₚ Z.of_nat <$> seq 0 (Z.to_nat n) ∧
     StronglySorted
       (suffix_le {| data := take (Z.to_nat n) buffer; sa := sa; length := n |}) sa) →
  needle_ok needle needle_len → (Z.to_nat n < fuel)%nat →
  sorted_index index ∧
  data index = take (Z.to_nat n) buffer ∧
  count_matches fuel (Some index) (Some needle) needle_len
  = Some (Z.of_nat (naive_count (take (Z.to_nat n) buffer)
                      (pattern needle needle_len))).
Proof.
  intros Hcreate Hn Hmax Hsorter Hok Hfuel.
  unfold create_index in Hcreate.
  destruct (Z.leb_spec n 0); [done|].
  destruct (malloc_index env), (malloc_data env), (malloc_sa env); try done.
  simpl in Hcreate.
  destruct (libsais env (take (Z.to_nat n) buffer) n) as [result sa'] eqn:Hsais.
  destruct (Z.eqb_spec result 0) as [->|]; [|done]. simpl in Hcreate.
  injection Hcreate as <-.
  destruct (Hsorter sa' eq_refl) as [Hperm Hsorted].
  assert (Hindex : sorted_index
            {| data := take (Z.to_nat n) buffer; sa := sa'; length := n |}).
  { unfold sorted_index. simpl. rewrite length_take.
    replace (Z.to_nat n `min` len buffer)%nat with (Z.to_nat n) by lia.
    split; [lia|]. split; [lia|]. done. }
  split; [done|]. split; [done|].
  by rewrite count_matches_sorted.
Qed.

Lemma create_index_then_count_witness :
  create_index banana_env banana 6 = Some banana_index ∧
  6 ≤ Z.of_nat (len banana) ∧ 6 ≤ INT32_MAX ∧
  needle_ok ana 3 ∧ (Z.to_nat 6 < 7)%nat ∧
  sorted_index banana_index ∧
  data banana_index = take (Z.to_nat 6) banana ∧
  count_matches 7 (Some banana_index) (Some ana) 3
  = Some (Z.of_nat (naive_count (take (Z.to_nat 6) banana) (pattern ana 3))).
Proof.
  assert (Hc : create_index banana_env banana 6 = Some banana_index) by reflexivity.
  assert (Hn : 6 ≤ Z.of_nat (len banana)) by (simpl; lia).
  assert (Hm : 6 ≤ INT32_MAX) by int32_lia.
  assert (Hs : ∀ sa, libsais banana_env (take (Z.to_nat 6) banana) 6 = (0, sa) →
     sa ≡ₚ Z.of_nat <$> seq 0 (Z.to_nat 6) ∧
     StronglySorted
       (suffix_le {| data := take (Z.to_nat 6) banana; sa := sa; length := 6 |}) sa).
  { intros sa [= <-]. split; decide_by_eval. }
  assert (Hk : needle_ok ana 3) by (unfold needle_ok; simpl; lia).
  assert (Hf : (Z.to_nat 6 < 7)%nat) by (simpl; lia).
  split; [exact Hc|]. split; [exact Hn|]. split; [exact Hm|]. split; [exact Hk|].
  split; [exact Hf|].
  exact (create_index_then_count banana_env banana 6 banana_index ana 3 7
           Hc Hn Hm Hs Hk Hf).
Defined.

(** ** One suffix order per buffer *)

Lemma lex_leb_antisym s t : lex_leb s t = true → lex_leb t s = true → s = t.
Proof.
  revert t. induction s as [|a s IH]; intros t Hst Hts.
  - by destruct t.
  - destruct t as [|b t]; [done|]. simpl in *.
    destruct (decide (a = b)) as [->|Hab].
    + rewrite decide_True in Hts by done. f_equal. by apply IH.
    + rewrite decide_False in Hts by done.
      apply bool_decide_eq_true in Hst, Hts. lia.
Qed.

Lemma suffix_le_antisym index p q :
  length index = Z.of_nat (len (data index)) →
  0 ≤ p < length index → 0 ≤ q < length index →
  suffix_le index p q → suffix_le index q p → p = q.
Proof.
  intros Hlen Hp Hq Hpq Hqp.
  pose proof (lex_leb_antisym _ _ Hpq Hqp) as Heq.
  apply (f_equal len) in Heq. unfold suffix in Heq.
  rewrite !length_drop in Heq. lia.
Qed.

(** X9. A buffer has one suffix order: two indexes over the same bytes that
    both meet the sorter's contract have the same suffix array, because the
    suffixes of a buffer all differ and the order has no ties.  So the
    results of the queries, the order in which [find_all] returns positions
    included, are determined by the buffer. *)
Theorem sorted_index_unique `{Libc} index1 index2 :
  sorted_index index1 → sorted_index index2 → data index1 = data index2 →
  index1 = index2 ∧
  ∀ fuel needle needle_len start end_ max_count result_buffer buffer_capacity,
    find_all fuel (Some index1) needle needle_len start end_ max_count
      result_buffer buffer_capacity
    = find_all fuel (Some index2) needle needle_len start end_ max_count
        result_buffer buffer_capacity.
Proof.
  intros Hs1 Hs2 Hdata.
  assert (Heq : index1 = index2); [|by rewrite Heq].
  pose proof (sorted_index_wf index1 Hs1) as (_ & _ & _ & Hin1).
  pose proof (sorted_index_wf index2 Hs2) as (_ & _ & _ & Hin2).
  destruct Hs1 as (Hlen1 & Hrange1 & Hperm1 & Hsorted1).
  destruct Hs2 as (Hlen2 & Hrange2 & Hperm2 & Hsorted2).
  destruct index1 as [d1 sa1 n1], index2 as [d2 sa2 n2]. simpl in *. subst d2.
  assert (n1 = n2) as -> by lia.
  f_equal. apply (StronglySorted_unique_strong
                    (suffix_le {| data := d1; sa := sa1; length := n2 |})).
  - intros p q Hp Hq. rewrite Forall_forall in Hin1, Hin2.
    apply suffix_le_antisym; [done|by apply Hin1|by apply Hin2].
  - done.
  - done.
  - by rewrite Hperm1, Hperm2.
Qed.

Lemma sorted_index_unique_witness :
  sorted_index banana_index ∧ sorted_index banana_index ∧
  data banana_index = data banana_index ∧ banana_index = banana_index.
Proof.
  assert (Hs : sorted_index banana_index) by decide_by_eval.
  assert (Hd : data banana_index = data banana_index) by reflexivity.
  split; [exact Hs|]. split; [exact Hs|]. split; [exact Hd|].
  exact (proj1 (sorted_index_unique banana_index banana_index Hs Hs Hd)).
Defined.

(** ** Bounds on the count *)

Lemma naive_count_bound (buffer m : list byte) :
  (0 < len m)%nat → (naive_count buffer m ≤ S (len buffer) - len m)%nat.
Proof.
  intros Hm. unfold naive_count, naive_positions.
  assert (Hsub : filter (occurs_at buffer m) (seq 0 (len buffer))
                 ⊆+ seq 0 (S (len buffer) - len m)).
  { apply NoDup_submseteq.
    - apply NoDup_filter, NoDup_seq.
    - intros p [[Hfit _] _]%list_elem_of_filter. apply elem_of_seq. lia. }
  apply submseteq_length in Hsub. by rewrite length_seq in Hsub.
Qed.

Lemma naive_count_zero (buffer m : list byte) :
  (0 < len m)%nat →
  naive_count buffer m = 0%nat ↔ ∀ p, ¬ occurs_at buffer m p.
Proof.
  intros Hm. unfold naive_count, naive_positions. split.
  - intros Hnil%nil_length_inv p Hocc.
    assert (Hin : p ∈ filter (occurs_at buffer m) (seq 0 (len buffer))).
    { apply list_elem_of_filter. split; [done|].
      apply elem_of_seq. destruct Hocc. lia. }
    rewrite Hnil in Hin. by apply elem_of_nil in Hin.
  - intros Hno. rewrite list_filter_none; [done|].
    apply Forall_forall. intros p _. apply Hno.
Qed.

(** X10. On a suffix-sorted index the result of [count_matches] for a
    needle with [needle_len > 0] lies between [0] and [n - needle_len + 1];
    it is [0] exactly when the needle occurs nowhere in the buffer, in
    particular whenever the needle is longer than the buffer. *)
Theorem count_matches_bounds `{Libc} index needle needle_len fuel :
  sorted_index index → needle_ok needle needle_len →
  (Z.to_nat (length index) < fuel)%nat →
  ∃ c,
    count_matches fuel (Some index) (Some needle) needle_len = Some c ∧
    0 ≤ c ∧ c ≤ Z.max 0 (length index - needle_len + 1) ∧
    (c = 0 ↔ ∀ p, ¬ occurs_at (data index) (pattern needle needle_len) p) ∧
    (length index < needle_len → c = 0).
Proof.
  intros Hsorted Hok Hfuel.
  rewrite count_matches_sorted by done. eexists. split; [done|].
  destruct Hsorted as (Hlen & Hrange & _). destruct Hok as [Hnl Hneedle].
  assert (Hpat : len (pattern needle needle_len) = Z.to_nat needle_len).
  { unfold pattern. rewrite length_take. lia. }
  pose proof (naive_count_bound (data index) (pattern needle needle_len)
                ltac:(lia)) as Hbound.
  pose proof (naive_count_zero (data index) (pattern needle needle_len)
                ltac:(lia)) as Hzero.
  split; [lia|]. split; [lia|]. split; [|lia].
  rewrite <- Hzero. lia.
Qed.

Lemma count_matches_bounds_witness :
  sorted_index banana_index ∧ needle_ok ana 3 ∧
  (Z.to_nat (length banana_index) < 7)%nat ∧
  ∃ c,
    count_matches 7 (Some banana_index) (Some ana) 3 = Some c ∧
    0 ≤ c ∧ c ≤ Z.max 0 (length banana_index - 3 + 1) ∧
    (c = 0 ↔ ∀ p, ¬ occurs_at (data banana_index) (pattern ana 3) p) ∧
    (length banana_index < 3 → c = 0).
Proof.
  assert (Hs : sorted_index banana_index) by decide_by_eval.
  assert (Hn : needle_ok ana 3) by (unfold needle_ok; simpl; lia).
  assert (Hf : (Z.to_nat (length banana_index) < 7)%nat) by (vm_compute; lia).
  split; [exact Hs|]. split; [exact Hn|]. split; [exact Hf|].
  exact (count_matches_bounds banana_index ana 3 7 Hs Hn Hf).
Defined.

(** ** Running the allocating functions *)

Lemma bind_run {A B} (m : M A) (f : A → M B) h x h' r :
  m h = Some (x, h') → f x h' = r → (m ≫= f) h = r.
Proof. intros Hm Hf. unfold mbind, M_bind. by rewrite Hm. Qed.

Lemma malloc_true sz h rest :
  mallocs h = true :: rest →
  ∃ p, blocks h !! p = None ∧
    malloc sz h
    = Some (Some p,
            {| blocks := <[p := {| size := sz; body := Uninit |}]> (blocks h);
               mallocs := rest |}).
Proof.
  intros Hm. exists (fresh (dom (blocks h))). split.
  - apply not_elem_of_dom, is_fresh.
  - unfold malloc. by rewrite Hm.
Qed.

Lemma malloc_false sz h :
  head (mallocs h) ≠ Some true →
  malloc sz h = Some (None, {| blocks := blocks h; mallocs := tail (mallocs h) |}).
Proof. unfold malloc. by destruct h as [m [|[] rest]]. Qed.

Lemma store_fields_run p upd h b fs :
  blocks h !! p = Some b → fields_of (body b) = Some fs →
  SIZEOF_SaisIndex ≤ size b →
  store_fields p upd h
  = Some ((), set_block p {| size := size b; body := Fields (upd fs) |} h).
Proof.
  intros Hb Hfs Hsz. unfold store_fields. rewrite Hb. simpl. rewrite Hfs. simpl.
  by rewrite decide_True.
Qed.

Lemma load_fields_run {A} p (field : index_fields → option A) h b fs v :
  blocks h !! p = Some b → fields_of (body b) = Some fs → field fs = Some v →
  load_fields p field h = Some (v, h).
Proof.
  intros Hb Hfs Hv. unfold load_fields. rewrite Hb. simpl. rewrite Hfs. simpl.
  by rewrite Hv.
Qed.

Lemma free_run a h b :
  blocks h !! a = Some b →
  free (Some a) h
  = Some ((), {| blocks := delete a (blocks h); mallocs := mallocs h |}).
Proof. intros Hb. unfold free. by rewrite Hb. Qed.

Lemma memcpy_to_run d src n h b :
  blocks h !! d = Some b → body b = Uninit →
  n ≤ size b → n ≤ Z.of_nat (len src) →
  memcpy_to (Some d) src n h
  = Some ((), set_block d {| size := size b;
                             body := Bytes (take (Z.to_nat n) src) |} h).
Proof.
  intros Hb Hbody Hsz Hsrc. unfold memcpy_to. simpl. rewrite Hb. simpl.
  by rewrite decide_True, Hbody.
Qed.

Lemma libsais_call_run sorter t s n h bt bs text result ws :
  blocks h !! t = Some bt → blocks h !! s = Some bs →
  body bt = Bytes text → body bs = Uninit →
  sorter text n = (result, ws) →
  SIZEOF_int32 * Z.of_nat (len ws) ≤ size bs →
  libsais_call sorter (Some t) (Some s) n h
  = Some (result, set_block s {| size := size bs; body := Words ws |} h).
Proof.
  intros Ht Hs Hbt Hbs Hsort Hfit. unfold libsais_call. simpl.
  rewrite Ht, Hs. simpl. rewrite Hbt, Hbs, Hsort.
  by rewrite decide_True.
Qed.

(** Looks a block up in a heap built by insertions. *)
Ltac heap_lookup :=
  cbn [blocks mallocs set_block];
  repeat first [rewrite lookup_insert_eq | rewrite lookup_insert_ne by done
               | rewrite lookup_delete_ne by done];
  reflexivity.

(** Runs the first computation of a sequence with the lemma [lem]. *)
Ltac run_with lem :=
  eapply bind_run;
  [eapply lem; first [heap_lookup | done | reflexivity | (cbn; lia)]|];
  cbn [size body f_data f_sa f_length].

(** Equality of two maps built by insertions and deletions. *)
Ltac heap_eq :=
  apply map_eq; intros ?;
  repeat first [rewrite lookup_insert | rewrite lookup_delete];
  repeat case_decide; subst; congruence.

Lemma int32_array_bytes_small n :
  0 ≤ n < 2 ^ 30 → int32_array_bytes n = SIZEOF_int32 * n.
Proof.
  intros Hn. unfold int32_array_bytes, to_size_t, SIZEOF_int32.
  rewrite (Z.mod_small n) by lia. rewrite Z.mod_small; lia.
Qed.

(** The steps of [create_index] up to the allocation of the suffix array,
    and from there to the return of the sorter. *)
Ltac run_build_to_sa Hrun1 Hrun2 :=
  eapply bind_run; [exact Hrun1|]; eapply bind_run; [exact Hrun2|];
  run_with @store_fields_run; run_with @load_fields_run;
  rewrite decide_False by done;
  run_with @load_fields_run;
  run_with memcpy_to_run; run_with @store_fields_run.

Ltac run_build_from_sa Hrun3 Hsort :=
  eapply bind_run; [exact Hrun3|];
  run_with @store_fields_run; run_with @load_fields_run;
  rewrite decide_False by done;
  run_with @load_fields_run; run_with @load_fields_run;
  eapply bind_run;
  [eapply libsais_call_run;
   first [heap_lookup | done | reflexivity | exact Hsort
         | (cbn; unfold SIZEOF_int32; lia)]|];
  cbn [size body].

(** The outcomes of a build: a null handle with the heap as it was, or a
    handle over three new blocks. *)
Lemma create_index_st_cases sorter buffer n h :
  n ≤ Z.of_nat (len buffer) → n < 2 ^ 30 →
  (∀ result ws, sorter (take (Z.to_nat n) buffer) n = (result, ws) →
                Z.of_nat (len ws) ≤ n) →
  (∃ h', create_index_st sorter buffer n h = Some (None, h') ∧
         blocks h' = blocks h ∧
         create_index (env_of h sorter) buffer n = None) ∨
  (∃ p d s ws rest,
     create_index_st sorter buffer n h
     = Some (Some p,
             {| blocks := built_blocks (blocks h) p d s
                            (take (Z.to_nat n) buffer) ws n;
                mallocs := rest |}) ∧
     mallocs h = true :: true :: true :: rest ∧
     blocks h !! p = None ∧ blocks h !! d = None ∧ blocks h !! s = None ∧
     p ≠ d ∧ p ≠ s ∧ d ≠ s ∧ 0 < n ∧
     create_index (env_of h sorter) buffer n
     = Some {| data := take (Z.to_nat n) buffer; sa := ws; length := n |}).
Proof.
  intros Hbuf Hmax Hfit. unfold create_index.
  destruct (Z.leb_spec n 0) as [Hle|Hpos].
  { left. exists h. unfold create_index_st.
    by destruct (Z.leb_spec n 0); [|lia]. }
  assert (Hn0 : (n <=? 0) = false) by lia.
  assert (Hsz : to_size_t n = n).
  { unfold to_size_t. apply Z.mod_small. lia. }
  assert (Hsz4 : int32_array_bytes n = SIZEOF_int32 * n).
  { apply int32_array_bytes_small. lia. }
  unfold create_index_st. rewrite Hn0, Hsz, Hsz4.
  unfold store_data, load_data, store_length, store_sa, load_sa.
  destruct h as [m script]. cbn [blocks mallocs].
  destruct script as [|[] script].
  { left. eexists.
    split; [eapply bind_run; [by apply malloc_false|]; reflexivity|done]. }
  2:{ left. eexists.
      split; [eapply bind_run; [by apply malloc_false|]; reflexivity|done]. }
  destruct (malloc_true SIZEOF_SaisIndex {| blocks := m; mallocs := true :: script |}
              script eq_refl) as (p & Hp & Hrun1).
  cbn [blocks] in Hp, Hrun1.
  destruct script as [|[] script].
  { left. eexists. split; [|split; [|done]].
    - eapply bind_run; [exact Hrun1|].
      eapply bind_run; [by apply malloc_false|]. cbn [mallocs blocks tail].
      run_with @store_fields_run. run_with @load_fields_run.
      rewrite decide_True by done.
      run_with free_run. reflexivity.
    - cbn. heap_eq. }
  2:{ left. eexists. split; [|split; [|done]].
    - eapply bind_run; [exact Hrun1|].
      eapply bind_run; [by apply malloc_false|]. cbn [mallocs blocks tail].
      run_with @store_fields_run. run_with @load_fields_run.
      rewrite decide_True by done.
      run_with free_run. reflexivity.
    - cbn. heap_eq. }
  destruct (malloc_true n
              {| blocks := <[p := {| size := SIZEOF_SaisIndex; body := Uninit |}]> m;
                 mallocs := true :: script |} script eq_refl)
    as (d & Hd & Hrun2).
  cbn [blocks] in Hd, Hrun2.
  assert (Hdp : d ≠ p) by (intros ->; by rewrite lookup_insert_eq in Hd).
  assert (Hpd : p ≠ d) by done.
  assert (Hdm : m !! d = None) by (by rewrite lookup_insert_ne in Hd).
  set (m4 :=
    <[p := {| size := SIZEOF_SaisIndex;
              body := Fields {| f_data := Some (Some d); f_sa := None;
                                f_length := Some n |} |}]>
      (<[d := {| size := n; body := Bytes (take (Z.to_nat n) buffer) |}]>
         (<[p := {| size := SIZEOF_SaisIndex;
                    body := Fields {| f_data := Some (Some d); f_sa := None;
                                      f_length := None |} |}]>
            (<[d := {| size := n; body := Uninit |}]>
               (<[p := {| size := SIZEOF_SaisIndex; body := Uninit |}]> m))))).
  destruct script as [|[] script].
  { left. eexists. split; [|split; [|done]].
    - run_build_to_sa Hrun1 Hrun2.
      eapply bind_run; [by apply malloc_false|]. cbn [mallocs blocks tail].
      run_with @store_fields_run. run_with @load_fields_run.
      rewrite decide_True by done.
      run_with @load_fields_run. run_with free_run. run_with free_run.
      reflexivity.
    - cbn. heap_eq. }
  2:{ left. eexists. split; [|split; [|done]].
    - run_build_to_sa Hrun1 Hrun2.
      eapply bind_run; [by apply malloc_false|]. cbn [mallocs blocks tail].
      run_with @store_fields_run. run_with @load_fields_run.
      rewrite decide_True by done.
      run_with @load_fields_run. run_with free_run. run_with free_run.
      reflexivity.
    - cbn. heap_eq. }
  destruct (malloc_true (SIZEOF_int32 * n)
              {| blocks := m4; mallocs := true :: script |} script eq_refl)
    as (s & Hs & Hrun3).
  cbn [blocks] in Hs, Hrun3. subst m4.
  assert (Hsp : s ≠ p) by (intros ->; by rewrite lookup_insert_eq in Hs).
  assert (Hps : p ≠ s) by done.
  assert (Hsd : s ≠ d).
  { intros ->. by rewrite lookup_insert_ne, lookup_insert_eq in Hs. }
  assert (Hds : d ≠ s) by done.
  assert (Hsm : m !! s = None) by (by rewrite !lookup_insert_ne in Hs).
  destruct (sorter (take (Z.to_nat n) buffer) n) as [result ws] eqn:Hsort.
  pose proof (Hfit result ws eq_refl) as Hws.
  destruct (Z.eqb_spec result 0) as [->|Hnz].
  - right. exists p, d, s, ws, script. split; [|split_and!; try done].
    + run_build_to_sa Hrun1 Hrun2. run_build_from_sa Hrun3 Hsort.
      cbn [negb].
      apply (f_equal (λ b, Some (Some p, {| blocks := b; mallocs := script |}))).
      cbn [blocks set_block]. unfold built_blocks. rewrite Hsz, Hsz4. heap_eq.
    + cbn. by rewrite Hsort.
  - left. eexists. split; [|split].
    + run_build_to_sa Hrun1 Hrun2. run_build_from_sa Hrun3 Hsort.
      assert (negb (result =? 0) = true) as ->
        by (by destruct (Z.eqb_spec result 0)).
      run_with @load_fields_run. run_with free_run.
      run_with @load_fields_run. run_with free_run. run_with free_run.
      reflexivity.
    + cbn. heap_eq.
    + cbn. rewrite Hsort. by destruct (Z.eqb_spec result 0).
Qed.

Lemma index_at_built m p d s bytes ws n rest :
  p ≠ d → p ≠ s → d ≠ s →
  index_at {| blocks := built_blocks m p d s bytes ws n; mallocs := rest |} p
  = Some {| data := bytes; sa := ws; length := n |}.
Proof.
  intros Hpd Hps Hds. unfold index_at, built_blocks. cbn [blocks].
  assert (Hsd : s ≠ d) by done.
  rewrite lookup_insert_eq. cbn [mbind option_bind body].
  rewrite (lookup_insert_ne _ p d), (lookup_insert_ne _ s d), lookup_insert_eq by done.
  cbn [mbind option_bind body].
  by rewrite (lookup_insert_ne _ p s), lookup_insert_eq by done.
Qed.

Lemma free_index_built m p d s bytes ws n rest :
  p ≠ d → p ≠ s → d ≠ s →
  m !! p = None → m !! d = None → m !! s = None →
  free_index_st (Some p)
    {| blocks := built_blocks m p d s bytes ws n; mallocs := rest |}
  = Some ((), {| blocks := m; mallocs := rest |}).
Proof.
  intros Hpd Hps Hds Hp Hd Hs. unfold free_index_st, load_data, load_sa, built_blocks.
  assert (Hdp : d ≠ p) by done. assert (Hsp : s ≠ p) by done.
  assert (Hsd : s ≠ d) by done.
  run_with @load_fields_run. rewrite decide_False by done. run_with free_run.
  run_with @load_fields_run. rewrite decide_False by done. run_with free_run.
  erewrite free_run by heap_lookup.
  apply (f_equal (λ b, Some ((), {| blocks := b; mallocs := rest |}))).
  cbn [blocks mallocs]. heap_eq.
Qed.

Lemma free_index_dangling p h :
  blocks h !! p = None → free_index_st (Some p) h = None.
Proof.
  intros Hp. unfold free_index_st, load_data, load_fields, mbind, M_bind.
  by rewrite Hp.
Qed.

(** X11. On any heap, for a buffer that holds the [n] bytes to index with
    [n < 2 ^ 30] and a sorter that writes at most [n] entries,
    [create_index] run over the heap never reaches undefined behaviour, and
    it agrees with its value-level model: it returns null exactly when the
    model fails, and otherwise a handle to a structure whose fields and
    arrays are the index the model returns. *)
Theorem create_index_st_refines sorter buffer n h :
  n ≤ Z.of_nat (len buffer) → n < 2 ^ 30 →
  (∀ result ws, sorter (take (Z.to_nat n) buffer) n = (result, ws) →
                Z.of_nat (len ws) ≤ n) →
  ∃ r h',
    create_index_st sorter buffer n h = Some (r, h') ∧
    (r ≫= index_at h') = create_index (env_of h sorter) buffer n ∧
    (r = None ↔ create_index (env_of h sorter) buffer n = None).
Proof.
  intros Hbuf Hmax Hfit.
  destruct (create_index_st_cases sorter buffer n h Hbuf Hmax Hfit)
    as [(h' & Hrun & _ & Hpure)
       |(p & d & s & ws & rest & Hrun & _ & _ & _ & _ & Hpd & Hps & Hds & _ & Hpure)].
  - exists None, h'. by rewrite Hpure.
  - eexists (Some p), _. split; [exact Hrun|]. rewrite Hpure. split.
    + by apply index_at_built.
    + by split.
Qed.

Lemma create_index_st_refines_witness :
  6 ≤ Z.of_nat (len banana) ∧ 6 < 2 ^ 30 ∧
  (∀ result ws, banana_sorter (take (Z.to_nat 6) banana) 6 = (result, ws) →
                Z.of_nat (len ws) ≤ 6) ∧
  ∃ r h',
    create_index_st banana_sorter banana 6 roomy_heap = Some (r, h') ∧
    (r ≫= index_at h') = create_index (env_of roomy_heap banana_sorter) banana 6 ∧
    (r = None ↔ create_index (env_of roomy_heap banana_sorter) banana 6 = None).
Proof.
  assert (Hb : 6 ≤ Z.of_nat (len banana)) by (simpl; lia).
  assert (Hm : 6 < 2 ^ 30) by lia.
  assert (Hf : ∀ result ws, banana_sorter (take (Z.to_nat 6) banana) 6 = (result, ws) →
                            Z.of_nat (len ws) ≤ 6).
  { intros result ws [= <- <-]. simpl. lia. }
  split; [exact Hb|]. split; [exact Hm|]. split; [exact Hf|].
  exact (create_index_st_refines banana_sorter banana 6 roomy_heap Hb Hm Hf).
Defined.

(** X12. [create_index] leaks nothing: when it returns null, after a
    refused length, a failed allocation or a failed sort, the allocated
    blocks are those it started with; when it returns a handle it has added
    three blocks at fresh addresses (the structure and its two arrays) and
    left every other block as it was. *)
Theorem create_index_st_no_leak sorter buffer n h :
  n ≤ Z.of_nat (len buffer) → n < 2 ^ 30 →
  (∀ result ws, sorter (take (Z.to_nat n) buffer) n = (result, ws) →
                Z.of_nat (len ws) ≤ n) →
  ∃ r h',
    create_index_st sorter buffer n h = Some (r, h') ∧
    match r with
    | None => blocks h' = blocks h
    | Some p =>
        ∃ d s, p ≠ d ∧ p ≠ s ∧ d ≠ s ∧
          blocks h !! p = None ∧ blocks h !! d = None ∧ blocks h !! s = None ∧
          dom (blocks h') = {[p; d; s]} ∪ dom (blocks h) ∧
          blocks h ⊆ blocks h'
    end.
Proof.
  intros Hbuf Hmax Hfit.
  destruct (create_index_st_cases sorter buffer n h Hbuf Hmax Hfit)
    as [(h' & Hrun & Hsame & _)
       |(p & d & s & ws & rest & Hrun & _ & Hp & Hd & Hs & Hpd & Hps & Hds & _ & _)].
  - by exists None, h'.
  - eexists (Some p), _. split; [exact Hrun|].
    exists d, s. do 6 (split; [done|]). cbn [blocks]. unfold built_blocks. split.
    + rewrite !dom_insert_L. apply set_eq. intros a.
      rewrite !elem_of_union, !elem_of_singleton. tauto.
    + etrans; [apply (insert_subseteq _ d); exact Hd|].
      etrans; [apply (insert_subseteq _ s); by rewrite lookup_insert_ne|].
      apply insert_subseteq. by rewrite !lookup_insert_ne.
Qed.

Lemma create_index_st_no_leak_witness :
  6 ≤ Z.of_nat (len banana) ∧ 6 < 2 ^ 30 ∧
  (∀ result ws, banana_sorter (take (Z.to_nat 6) banana) 6 = (result, ws) →
                Z.of_nat (len ws) ≤ 6) ∧
  ∃ r h',
    create_index_st banana_sorter banana 6
      {| blocks := ∅; mallocs := [true; true; false] |} = Some (r, h') ∧
    match r with
    | None => blocks h' = ∅
    | Some p =>
        ∃ d s, p ≠ d ∧ p ≠ s ∧ d ≠ s ∧
          (∅ : gmap addr block) !! p = None ∧ (∅ : gmap addr block) !! d = None ∧
          (∅ : gmap addr block) !! s = None ∧
          dom (blocks h') = {[p; d; s]} ∪ dom (∅ : gmap addr block) ∧
          ∅ ⊆ blocks h'
    end.
Proof.
  assert (Hb : 6 ≤ Z.of_nat (len banana)) by (simpl; lia).
  assert (Hm : 6 < 2 ^ 30) by lia.
  assert (Hf : ∀ result ws, banana_sorter (take (Z.to_nat 6) banana) 6 = (result, ws) →
                            Z.of_nat (len ws) ≤ 6).
  { intros result ws [= <- <-]. simpl. lia. }
  split; [exact Hb|]. split; [exact Hm|]. split; [exact Hf|].
  exact (create_index_st_no_leak banana_sorter banana 6
           {| blocks := ∅; mallocs := [true; true; false] |} Hb Hm Hf).
Defined.

(** X13. [free_index] undoes [create_index]: released on the handle a
    successful build returned, it frees the two arrays and the structure and
    leaves the allocated blocks as they were before the build.  The handle
    is dangling afterwards: it stands for no index, and a second
    [free_index] on it is undefined behaviour.  On the null handle
    [free_index] does nothing. *)
Theorem free_index_st_round_trip sorter buffer n h p h' :
  n ≤ Z.of_nat (len buffer) → n < 2 ^ 30 →
  (∀ result ws, sorter (take (Z.to_nat n) buffer) n = (result, ws) →
                Z.of_nat (len ws) ≤ n) →
  create_index_st sorter buffer n h = Some (Some p, h') →
  free_index_st None h' = Some ((), h') ∧
  ∃ h'',
    free_index_st (Some p) h' = Some ((), h'') ∧
    blocks h'' = blocks h ∧
    index_at h'' p = None ∧
    free_index_st (Some p) h'' = None.
Proof.
  intros Hbuf Hmax Hfit Hcreate. split; [done|].
  destruct (create_index_st_cases sorter buffer n h Hbuf Hmax Hfit)
    as [(h0 & Hrun & _)
       |(p' & d & s & ws & rest & Hrun & _ & Hp & Hd & Hs & Hpd & Hps & Hds & _ & _)].
  { rewrite Hrun in Hcreate. done. }
  rewrite Hrun in Hcreate. injection Hcreate as <- <-.
  exists {| blocks := blocks h; mallocs := rest |}.
  split; [by apply free_index_built|]. split; [done|]. split.
  - unfold index_at. cbn [blocks]. by rewrite Hp.
  - by apply free_index_dangling.
Qed.

Lemma free_index_st_round_trip_witness :
  6 ≤ Z.of_nat (len banana) ∧ 6 < 2 ^ 30 ∧
  (∀ result ws, banana_sorter (take (Z.to_nat 6) banana) 6 = (result, ws) →
                Z.of_nat (len ws) ≤ 6) ∧
  create_index_st banana_sorter banana 6 roomy_heap
  = Some (Some 0%nat,
          {| blocks := built_blocks ∅ 0%nat 1%nat 2%nat banana [5; 3; 1; 0; 4; 2] 6;
             mallocs := replicate 5 true |}) ∧
  ∃ h'',
    free_index_st (Some 0%nat)
      {| blocks := built_blocks ∅ 0%nat 1%nat 2%nat banana [5; 3; 1; 0; 4; 2] 6;
         mallocs := replicate 5 true |} = Some ((), h'') ∧
    blocks h'' = blocks roomy_heap ∧
    index_at h'' 0%nat = None ∧
    free_index_st (Some 0%nat) h'' = None.
Proof.
  assert (Hb : 6 ≤ Z.of_nat (len banana)) by (simpl; lia).
  assert (Hm : 6 < 2 ^ 30) by lia.
  assert (Hf : ∀ result ws, banana_sorter (take (Z.to_nat 6) banana) 6 = (result, ws) →
                            Z.of_nat (len ws) ≤ 6).
  { intros result ws [= <- <-]. simpl. lia. }
  assert (Hc : create_index_st banana_sorter banana 6 roomy_heap
    = Some (Some 0%nat,
            {| blocks := built_blocks ∅ 0%nat 1%nat 2%nat banana [5; 3; 1; 0; 4; 2] 6;
               mallocs := replicate 5 true |})) by (by vm_compute).
  split; [exact Hb|]. split; [exact Hm|]. split; [exact Hf|]. split; [exact Hc|].
  exact (proj2 (free_index_st_round_trip banana_sorter banana 6 roomy_heap 0%nat _
                  Hb Hm Hf Hc)).
Defined.

(** ** The result buffer *)

(** X14. [alloc_result_buffer] returns null without allocating when
    [count ≤ 0] or when [malloc] fails.  When [count > 0] and [malloc]
    succeeds it returns a non-null pointer to one fresh block of
    [count * sizeof(int32_t)] bytes, which for [count < 2 ^ 30] is room
    for [count] positions.  [free_result_buffer] on that block restores the
    heap, a second call on it is undefined behaviour, and on the null
    pointer it does nothing. *)
Theorem result_buffer_st_round_trip count h :
  (count ≤ 0 → alloc_result_buffer_st count h = Some (None, h)) ∧
  free_result_buffer_st None h = Some ((), h) ∧
  (0 < count → head (mallocs h) ≠ Some true →
   ∃ h', alloc_result_buffer_st count h = Some (None, h') ∧
         blocks h' = blocks h) ∧
  (0 < count → ∀ rest, mallocs h = true :: rest →
   ∃ p,
     let h' := {| blocks := <[p := {| size := int32_array_bytes count;
                                      body := Uninit |}]> (blocks h);
                  mallocs := rest |} in
     blocks h !! p = None ∧
     alloc_result_buffer_st count h = Some (Some p, h') ∧
     (count < 2 ^ 30 → int32_array_bytes count = SIZEOF_int32 * count) ∧
     ∃ h'',
       free_result_buffer_st (Some p) h' = Some ((), h'') ∧
       blocks h'' = blocks h ∧
       free_result_buffer_st (Some p) h'' = None).
Proof.
  unfold alloc_result_buffer_st. split; [|split; [done|split]].
  - intros Hle. by destruct (Z.leb_spec count 0); [|lia].
  - intros Hpos Hfail. destruct (Z.leb_spec count 0); [lia|].
    eexists. split; [by apply malloc_false|done].
  - intros Hpos rest Hm. destruct (Z.leb_spec count 0); [lia|].
    destruct (malloc_true (int32_array_bytes count) h rest Hm) as (p & Hp & Hrun).
    exists p. cbv zeta. split; [done|]. split; [exact Hrun|].
    split; [intros Hsmall; apply int32_array_bytes_small; lia|].
    eexists. split; [|split].
    + unfold free_result_buffer_st. eapply free_run. cbn [blocks].
      apply lookup_insert_eq.
    + cbn [blocks]. by apply delete_insert_id.
    + unfold free_result_buffer_st, free. cbn [blocks].
      by rewrite delete_insert_id, Hp.
Qed.

Lemma result_buffer_st_round_trip_witness :
  alloc_result_buffer_st 0 roomy_heap = Some (None, roomy_heap) ∧
  (∃ h', alloc_result_buffer_st 10 {| blocks := ∅; mallocs := [false] |}
         = Some (None, h') ∧ blocks h' = ∅) ∧
  ∃ p,
    let h' := {| blocks := <[p := {| size := int32_array_bytes 10;
                                     body := Uninit |}]> (blocks roomy_heap);
                 mallocs := replicate 7 true |} in
    blocks roomy_heap !! p = None ∧
    alloc_result_buffer_st 10 roomy_heap = Some (Some p, h') ∧
    (10 < 2 ^ 30 → int32_array_bytes 10 = SIZEOF_int32 * 10) ∧
    ∃ h'',
      free_result_buffer_st (Some p) h' = Some ((), h'') ∧
      blocks h'' = blocks roomy_heap ∧
      free_result_buffer_st (Some p) h'' = None.
Proof.
  destruct (result_buffer_st_round_trip 0 roomy_heap) as (Hzero & _ & _ & _).
  destruct (result_buffer_st_round_trip 10 {| blocks := ∅; mallocs := [false] |})
    as (_ & _ & Hfail & _).
  destruct (result_buffer_st_round_trip 10 roomy_heap) as (_ & _ & _ & Hten).
  split; [apply Hzero; lia|]. split; [apply Hfail; [lia|done]|].
  apply Hten; [lia|reflexivity].
Defined.

(** X15. The byte count [count * sizeof(int32_t)] is computed in the 32-bit
    [size_t] of the target and wraps from [2 ^ 30] entries on: for such a
    [count] a successful [alloc_result_buffer] returns a block of
    [4 * count - 2 ^ 32] bytes, which is too small for [count] positions.
    [create_index] computes the size of the suffix array the same way. *)
Theorem alloc_result_buffer_st_wraps count h rest :
  2 ^ 30 ≤ count ≤ INT32_MAX → mallocs h = true :: rest →
  ∃ p h' b,
    alloc_result_buffer_st count h = Some (Some p, h') ∧
    blocks h' !! p = Some b ∧
    size b = SIZEOF_int32 * count - 2 ^ 32 ∧
    size b < SIZEOF_int32 * count.
Proof.
  intros Hcount Hm. unfold alloc_result_buffer_st.
  destruct (Z.leb_spec count 0); [int32_lia|].
  destruct (malloc_true (int32_array_bytes count) h rest Hm) as (p & Hp & Hrun).
  eexists p, _, _. split; [exact Hrun|]. cbn [blocks].
  split; [apply lookup_insert_eq|]. cbn [size].
  assert (Hbytes : int32_array_bytes count = SIZEOF_int32 * count - 2 ^ 32).
  { unfold int32_array_bytes, to_size_t, SIZEOF_int32, INT32_MAX in *.
    rewrite (Z.mod_small count) by lia.
    replace (count * 4) with (4 * count - 2 ^ 32 + 1 * 2 ^ 32) by lia.
    rewrite Z.mod_add by lia. apply Z.mod_small. lia. }
  rewrite Hbytes. split; [done|lia].
Qed.

Lemma alloc_result_buffer_st_wraps_witness :
  2 ^ 30 ≤ 2 ^ 30 ≤ INT32_MAX ∧ mallocs roomy_heap = true :: replicate 7 true ∧
  ∃ p h' b,
    alloc_result_buffer_st (2 ^ 30) roomy_heap = Some (Some p, h') ∧
    blocks h' !! p = Some b ∧
    size b = SIZEOF_int32 * 2 ^ 30 - 2 ^ 32 ∧
    size b < SIZEOF_int32 * 2 ^ 30.
Proof.
  assert (Hc : 2 ^ 30 ≤ 2 ^ 30 ≤ INT32_MAX) by int32_lia.
  assert (Hm : mallocs roomy_heap = true :: replicate 7 true) by reflexivity.
  split; [exact Hc|]. split; [exact Hm|].
  exact (alloc_result_buffer_st_wraps (2 ^ 30) roomy_heap (replicate 7 true) Hc Hm).
Defined.

(** X16. [get_index_length] on the handle a successful [create_index]
    returned gives the length [n] the index was built with and changes
    nothing; on the null handle it gives [0]; on the handle after
    [free_index] it reads freed memory, which is undefined behaviour. *)
Theorem get_index_length_st_built sorter buffer n h p h' :
  n ≤ Z.of_nat (len buffer) → n < 2 ^ 30 →
  (∀ result ws, sorter (take (Z.to_nat n) buffer) n = (result, ws) →
                Z.of_nat (len ws) ≤ n) →
  create_index_st sorter buffer n h = Some (Some p, h') →
  get_index_length_st None h' = Some (0, h') ∧
  get_index_length_st (Some p) h' = Some (n, h') ∧
  0 < n ∧
  ∀ h'', free_index_st (Some p) h' = Some ((), h'') →
         get_index_length_st (Some p) h'' = None.
Proof.
  intros Hbuf Hmax Hfit Hcreate. split; [done|].
  destruct (create_index_st_cases sorter buffer n h Hbuf Hmax Hfit)
    as [(h0 & Hrun & _)
       |(p' & d & s & ws & rest & Hrun & _ & Hp & Hd & Hs & Hpd & Hps & Hds & Hn & _)].
  { rewrite Hrun in Hcreate. done. }
  rewrite Hrun in Hcreate. injection Hcreate as <- <-.
  split; [|split; [done|]].
  - unfold get_index_length_st, load_length, built_blocks.
    eapply load_fields_run; [heap_lookup|reflexivity|reflexivity].
  - intros h'' Hfree. rewrite free_index_built in Hfree by done.
    injection Hfree as <-.
    unfold get_index_length_st, load_length, load_fields. cbn [blocks].
    by rewrite Hp.
Qed.

Lemma get_index_length_st_built_witness :
  6 ≤ Z.of_nat (len banana) ∧ 6 < 2 ^ 30 ∧
  (∀ result ws, banana_sorter (take (Z.to_nat 6) banana) 6 = (result, ws) →
                Z.of_nat (len ws) ≤ 6) ∧
  create_index_st banana_sorter banana 6 roomy_heap
  = Some (Some 0%nat,
          {| blocks := built_blocks ∅ 0%nat 1%nat 2%nat banana [5; 3; 1; 0; 4; 2] 6;
             mallocs := replicate 5 true |}) ∧
  get_index_length_st (Some 0%nat)
    {| blocks := built_blocks ∅ 0%nat 1%nat 2%nat banana [5; 3; 1; 0; 4; 2] 6;
       mallocs := replicate 5 true |}
  = Some (6, {| blocks := built_blocks ∅ 0%nat 1%nat 2%nat banana [5; 3; 1; 0; 4; 2] 6;
                mallocs := replicate 5 true |}).
Proof.
  assert (Hb : 6 ≤ Z.of_nat (len banana)) by (simpl; lia).
  assert (Hm : 6 < 2 ^ 30) by lia.
  assert (Hf : ∀ result ws, banana_sorter (take (Z.to_nat 6) banana) 6 = (result, ws) →
                            Z.of_nat (len ws) ≤ 6).
  { intros result ws [= <- <-]. simpl. lia. }
  assert (Hc : create_index_st banana_sorter banana 6 roomy_heap
    = Some (Some 0%nat,
            {| blocks := built_blocks ∅ 0%nat 1%nat 2%nat banana [5; 3; 1; 0; 4; 2] 6;
               mallocs := replicate 5 true |})) by (by vm_compute).
  split; [exact Hb|]. split; [exact Hm|]. split; [exact Hf|]. split; [exact Hc|].
  exact (proj1 (proj2 (get_index_length_st_built banana_sorter banana 6 roomy_heap
                         0%nat _ Hb Hm Hf Hc))).
Defined.
